(** * intermittent_slider: the burst channel, the region posterior and the tick

    A shallow embedding of [01_intro_to_bayesian_methods/src/intermittent_slider.py]
    and the properties its specification states about it.

    Numbers.  The program computes with Python and numpy floats.  The
    embedding is in exact arithmetic: a finite float is a real number of
    [R], and the one non-finite value that the program creates and tests
    on purpose, [np.nan], is a value of its own ([nan] of [float] below).
    Rounding, overflow, infinities and signed zeros are not modelled.
    The embedding therefore agrees with the program where no operation
    overflows and [**] has a positive base.  A statement that depends on
    it carries the bounds that keep the computation there (magnitudes of
    weights and priors, base probabilities below 1), or is stated for the
    calls that return.

    Randomness.  [np.random] is a process-wide generator.  It is modelled
    as the sequence of values its calls return ([Rng]), threaded through
    every function that draws. *)

From Stdlib Require Import String Ascii Reals Lra ZArith Bool Lia List Permutation.
Import ListNotations.

Local Open Scope R_scope.

(** ** Comparisons of reals as booleans *)

Definition Rltb (a b : R) : bool := if Rlt_dec a b then true else false.

(** ** The random generator

    [uniform_draws] lists what the successive calls of [np.random.random()]
    and [np.random.uniform(0, 1)] return, [normal_draws] the successive
    standard normal variates behind [np.random.normal]; the two counters
    say how many of each have been consumed. *)

Record Rng : Type := mkRng {
  uniform_draws : nat -> R;
  normal_draws : nat -> R;
  uniform_used : nat;
  normal_used : nat
}.

(** numpy draws uniform samples from the half-open interval [0, 1). *)
Definition uniform_ok (rng : Rng) : Prop :=
  forall n : nat, 0 <= uniform_draws rng n < 1.

(** [np.random.random()] *)
Definition random (rng : Rng) : R * Rng :=
  (uniform_draws rng (uniform_used rng),
   mkRng (uniform_draws rng) (normal_draws rng)
         (S (uniform_used rng)) (normal_used rng)).

(** [np.random.uniform(low, high)] *)
Definition uniform (low high : R) (rng : Rng) : R * Rng :=
  let '(u, rng') := random rng in (low + (high - low) * u, rng').

(** [np.random.normal(loc, scale)] *)
Definition normal (loc scale : R) (rng : Rng) : R * Rng :=
  (loc + scale * normal_draws rng (normal_used rng),
   mkRng (uniform_draws rng) (normal_draws rng)
         (uniform_used rng) (S (normal_used rng))).

(** ** class Gilbert *)

Record Gilbert : Type := mkGilbert {
  p1 : R;
  p2 : R;
  state : Z
}.

(** [Gilbert.__init__] *)
Definition Gilbert_init (p1 p2 : R) : Gilbert := mkGilbert p1 p2 0%Z.

(** [1 - ((1 - p) ** (dt))], the base probability [p] scaled to the
    elapsed time [dt].  Python's float [**] is [Rpower] wherever the base
    [1 - p] is positive, that is for every [p < 1], and the power does
    not overflow; for [0 <= p < 1] and [0 <= dt] it never does.  Outside
    that domain Python raises or returns another value than [Rpower]. *)
Definition time_scaled (p dt : R) : R := 1 - Rpower (1 - p) dt.

Definition set_state (g : Gilbert) (s : Z) : Gilbert :=
  mkGilbert (p1 g) (p2 g) s.

(** The first [if] of [update]: [if self.state == 0: ...]. *)
Definition update_if_state_0 (sp1 : R) (g : Gilbert) (rng : Rng) : Gilbert * Rng :=
  if (state g =? 0)%Z then
    let '(u, rng') := random rng in
    if Rltb u sp1 then (set_state g 1%Z, rng') else (g, rng')
  else (g, rng).

(** The second [if] of [update]: [if self.state == 1: ...].  It is an
    [if], not an [elif]: it tests the state the first one has left. *)
Definition update_if_state_1 (sp2 : R) (g : Gilbert) (rng : Rng) : Gilbert * Rng :=
  if (state g =? 1)%Z then
    let '(u, rng') := random rng in
    if Rltb u sp2 then (set_state g 0%Z, rng') else (g, rng')
  else (g, rng).

(** [Gilbert.update]: the returned state, the mutated object and the
    generator after the call, for the calls in which [**] returns (see
    [time_scaled]). *)
Definition update (g : Gilbert) (dt : R) (rng : Rng) : Z * Gilbert * Rng :=
  let sp1 := time_scaled (p1 g) dt in
  let sp2 := time_scaled (p2 g) dt in
  let '(g1, rng1) := update_if_state_0 sp1 g rng in
  let '(g2, rng2) := update_if_state_1 sp2 g1 rng1 in
  (state g2, g2, rng2).

(** Successive calls of [update], one per elapsed time of [dts]. *)
Fixpoint run_updates (g : Gilbert) (dts : list R) (rng : Rng) : Gilbert * Rng :=
  match dts with
  | [] => (g, rng)
  | dt :: dts' => let '(_, g', rng') := update g dt rng in run_updates g' dts' rng'
  end.

(** ** numpy floats: a real number or [np.nan] *)

Inductive float : Type :=
| nan
| fin (r : R).

Definition fadd (a b : float) : float :=
  match a, b with
  | fin x, fin y => fin (x + y)
  | _, _ => nan
  end.

Definition fmul (a b : float) : float :=
  match a, b with
  | fin x, fin y => fin (x * y)
  | _, _ => nan
  end.

(** Division of numpy arrays does not raise.  A division by zero gives a
    non-finite value there ([nan] for 0/0, an infinity otherwise); the
    model, which has no infinities, gives [nan] in both cases. *)
Definition fdiv (a b : float) : float :=
  match a, b with
  | fin x, fin y => if Req_dec_T y 0 then nan else fin (x / y)
  | _, _ => nan
  end.

(** [a < b]: every comparison with [np.nan] is false. *)
Definition flt (a b : float) : bool :=
  match a, b with
  | fin x, fin y => Rltb x y
  | _, _ => false
  end.

(** [a > b] *)
Definition fgt (a b : float) : bool := flt b a.

(** [np.sqrt] *)
Definition fsqrt (a : float) : float :=
  match a with
  | fin x => if Rltb x 0 then nan else fin (sqrt x)
  | nan => nan
  end.

(** [np.sum] of a one-dimensional array; the sum of the empty array is 0. *)
Fixpoint fsum (l : list float) : float :=
  match l with
  | [] => fin 0
  | a :: l' => fadd a (fsum l')
  end.


(** A finite float that is not negative. *)
Definition nonneg (a : float) : Prop :=
  match a with fin x => 0 <= x | nan => False end.

(** A finite float that is positive. *)
Definition positive (a : float) : Prop :=
  match a with fin x => 0 < x | nan => False end.

(** ** Results of code that can raise *)

Definition bind {A B : Type} (m : option A) (k : A -> option B) : option B :=
  match m with
  | Some a => k a
  | None => None
  end.

Notation "x <- m ;; k" := (bind m (fun x => k))
  (at level 61, m at next level, right associativity).
Notation "' p <- m ;; k" := (bind m (fun x => match x with p => k end))
  (at level 61, p pattern, m at next level, right associativity).

(** ** class Box *)

Record Box : Type := mkBox {
  name : string;
  left : R;
  right : R;
  prior : R;
  color : string
}.

(** [Box.__init__]: five assignments. *)
Definition Box_init (name : string) (left right prior : R) (color : string) : Box :=
  mkBox name left right prior color.

(** What a constructor call does: it returns the object or raises. *)
Inductive constructed (A : Type) : Type :=
| Returned (obj : A)
| Raised.

Arguments Returned {A} obj.
Arguments Raised {A}.

(** The call [Box(name, left, right, prior, color)]: [__init__] tests
    nothing, so the call returns. *)
Definition Box_new (name : string) (left right prior : R) (color : string)
  : constructed Box :=
  Returned (Box_init name left right prior color).

(** The call [Gilbert(p1, p2)]: [__init__] tests nothing either. *)
Definition Gilbert_new (p1 p2 : R) : constructed Gilbert :=
  Returned (Gilbert_init p1 p2).

(** ** box_probability *)

(** A row of the particle array: column 0 is the position, column 1 the
    velocity. *)
Definition Particle : Type := (float * float)%type.

(** [particles[:, 0]] *)
Definition column0 (particles : list Particle) : list float := map fst particles.

(** [np.logical_and(xs > box.left, xs < box.right)] *)
Definition in_box (box : Box) (xs : list float) : list bool :=
  map (fun x => fgt x (fin (left box)) && flt x (fin (right box))) xs.

(** [weights[mask]] for a boolean mask: numpy raises IndexError when a
    mask of at least one element and the array differ in length.  (An
    empty mask selects nothing from an array of any length; the model
    reports an error there too, so what depends on it is stated for
    clouds of as many weights as particles or of at least one particle.) *)
Fixpoint mask_select (mask : list bool) (weights : list float) : option (list float) :=
  match mask, weights with
  | [], [] => Some []
  | m :: mask', w :: weights' =>
      sel <- mask_select mask' weights' ;;
      Some (if m then w :: sel else sel)
  | _, _ => None
  end.

(** The body of the loop: [np.sum(weights[mask] * box.prior)]. *)
Definition box_posterior (xs weights : list float) (box : Box) : option float :=
  sel <- mask_select (in_box box xs) weights ;;
  Some (fsum (map (fun w => fmul w (fin (prior box))) sel)).

(** The loop [for box in boxes: ... probs.append(posterior)]. *)
Fixpoint box_posteriors (xs weights : list float) (boxes : list Box)
  : option (list float) :=
  match boxes with
  | [] => Some []
  | box :: boxes' =>
      posterior <- box_posterior xs weights box ;;
      probs <- box_posteriors xs weights boxes' ;;
      Some (posterior :: probs)
  end.

(** [np.array(probs) + 1e-6] *)
Definition smooth (probs : list float) : list float :=
  map (fun p => fadd p (fin 1e-6)) probs.

(** [probs / np.sum(probs)] *)
Definition normalise (probs : list float) : list float :=
  map (fun p => fdiv p (fsum probs)) probs.

(** The scores before the normalisation: the value of [probs] after line 91. *)
Definition box_scores (particles : list Particle) (weights : list float)
    (boxes : list Box) : option (list float) :=
  probs <- box_posteriors (column0 particles) weights boxes ;;
  Some (smooth probs).

Definition box_probability (particles : list Particle) (weights : list float)
    (boxes : list Box) : option (list float) :=
  probs <- box_scores particles weights boxes ;;
  Some (normalise probs).

(** The regions of [create_slider]. *)
Definition create_slider_boxes : list Box :=
  [ Box_init "A" 0.0 0.1 0.25 "#ff7200";
    Box_init "X" 0.1 0.9 0.25 "#3e3e3f";
    Box_init "B" 0.9 1.0 0.5 "#086375" ]%string.

(** A cloud, as positions and weights, whose weights are finite and not negative, except possibly
    the weights of the particles whose position is [nan]. *)
Definition cloud_ok (xs ws : list float) : Prop :=
  Forall2 (fun x w => x = nan \/ nonneg w) xs ws.

(** ** class SliderDemo

    The log file is the list of the rows written to it.  The canvas is an
    object of the module [tkanvas], outside this file: what [draw] paints
    on it is a parameter below.  Painting reads the attributes and writes
    none, but it can raise, which ends the tick where it stands. *)

(** A row of the log, one field per column of [SliderLogger]. *)
Record LogRow : Type := mkLogRow {
  log_t : R;
  true_x : R;
  true_dx : R;
  obs_x : float;
  obs_speed : R;
  est_x : float;
  est_dx : float;
  std_x : float;
  std_dx : float;
  mode : Z
}.

(** The command line of [create_slider]. *)
Record Args : Type := mkArgs {
  arg_particles : bool;
  arg_block : bool;
  arg_sampling : R
}.

(** The attributes of a [SliderDemo].  [t], [dt], [observed_x] and
    [observed] are created by the first [update_state] and [weights] by the
    first [update_filter]; each is written before anything reads it, and
    holds a placeholder until then. *)
Record SliderDemo : Type := mkSliderDemo {
  boxes : list Box;
  screen_size : R;
  slider_height : R;
  logger : list LogRow;
  gilbert : Gilbert;
  n_particles : nat;
  particles : list Particle;
  weights : list float;
  show_particles : bool;
  show_block : bool;
  sampling_intermittency : R;
  last_x : option R;
  last_t : R;
  start_time : R;
  dx : R;
  x : R;
  position_noise : R;
  t : R;
  dt : R;
  observed_x : R;
  observed : bool
}.

(** [self.x = screen_x / self.screen_size] and the [if self.last_x != None]
    that follows: the new [x], [dx] and the elapsed time.  Python raises
    ZeroDivisionError on [dx / dt] when two ticks carry the same time. *)
Definition elapsed (d : SliderDemo) (screen_x now : R) : option (R * R * R) :=
  let x' := screen_x / screen_size d in
  match last_x d with
  | Some lx =>
      let dx' := x' - lx in
      let dt' := now - last_t d in
      if Req_dec_T dt' 0 then None else Some (x', dx' / dt', dt')
  | None => Some (x', dx d, 1 / 60.0)
  end.

(** [SliderDemo.update_state]; [now] is what [time.time()] returns.
    [None] is the ZeroDivisionError of [dx / dt]; the other ways in which
    the method can raise (a screen size of 0, a negative noise level, a
    power that overflows in [Gilbert.update]) are outside the model. *)
Definition update_state (d : SliderDemo) (screen_x now : R) (rng : Rng)
  : option (SliderDemo * Rng) :=
  '(x', dx', dt') <- elapsed d screen_x now ;;
  let '(_, gilbert', rng1) := update (gilbert d) dt' rng in
  let '(noise, rng2) := normal 0 (position_noise d) rng1 in
  let observed_x' := x' + noise in
  let '(u, rng3) := uniform 0 1 rng2 in
  let observed' :=
    if (state gilbert' =? 0)%Z then Rltb u 0.9
    else Rltb u (sampling_intermittency d) in
  Some (mkSliderDemo (boxes d) (screen_size d) (slider_height d) (logger d)
          gilbert' (n_particles d) (particles d) (weights d)
          (show_particles d) (show_block d) (sampling_intermittency d)
          (Some x') now (start_time d) dx' x' (position_noise d)
          now dt' observed_x' observed', rng3).

(** The list [observation] that [update_filter] builds and hands on. *)
Definition observation (d : SliderDemo) : float * float :=
  (if observed d then fin (observed_x d) else nan, fin (Rabs (dx d))).

(** What [draw] logs as [obs_x]. *)
Definition logged_obs_x (d : SliderDemo) : float :=
  if negb (observed d) then nan else fin (observed_x d).

Section SliderFilter.

(** The module [slider_filter] is outside this file; its functions are
    parameters.  [filter_step] draws from the shared generator. *)
Variable prior_sample : nat -> Rng -> list Particle * Rng.
Variable filter_step :
  list Particle -> float * float -> R -> R -> Rng ->
  list Particle * list float * Rng.
Variable expected_position : list Particle -> list float -> float * float.
Variable variance_position : list Particle -> list float -> float * float.

(** The painting of [draw]: [paint_boxes] is the loop over the boxes and
    their probabilities, before the row is logged ([colorscale] and
    [src.rectangle]); [paint_estimate] is all that is painted after it.
    [None] is an exception. *)
Variable paint_boxes : SliderDemo -> list float -> option unit.
Variable paint_estimate : SliderDemo -> option unit.

(** [SliderDemo.__init__]; [now] is what [time.time()] returns.  The
    creation of the canvas and of the log file is left out. *)
Definition SliderDemo_init (boxes : list Box) (args : Args) (now : R) (rng : Rng)
  : SliderDemo * Rng :=
  let '(cloud, rng') := prior_sample 200%nat rng in
  (mkSliderDemo boxes 1000 150 [] (Gilbert_init 0.5 0.3) 200 cloud []
     (arg_particles args) (arg_block args) (arg_sampling args)
     None now now 0 0 0.03 0 0 0 false, rng').

(** [SliderDemo.update_filter] *)
Definition update_filter (d : SliderDemo) (rng : Rng) : SliderDemo * Rng :=
  let '(particles', weights', rng') :=
    filter_step (particles d) (observation d) (dt d) 0.00005 rng in
  (mkSliderDemo (boxes d) (screen_size d) (slider_height d) (logger d)
     (gilbert d) (n_particles d) particles' weights'
     (show_particles d) (show_block d) (sampling_intermittency d)
     (last_x d) (last_t d) (start_time d) (dx d) (x d) (position_noise d)
     (t d) (dt d) (observed_x d) (observed d), rng').

(** The row that [draw] writes; [now] is what [time.time()] returns there. *)
Definition log_row (d : SliderDemo) (now : R) : LogRow :=
  let expected_pos := expected_position (particles d) (weights d) in
  let expected_var := variance_position (particles d) (weights d) in
  mkLogRow (now - start_time d) (x d) (dx d) (logged_obs_x d) (Rabs (dx d))
    (fst expected_pos) (snd expected_pos)
    (fsqrt (fst expected_var)) (fsqrt (snd expected_var))
    (state (gilbert d)).

Definition log (d : SliderDemo) (row : LogRow) : SliderDemo :=
  mkSliderDemo (boxes d) (screen_size d) (slider_height d) (logger d ++ [row])
    (gilbert d) (n_particles d) (particles d) (weights d)
    (show_particles d) (show_block d) (sampling_intermittency d)
    (last_x d) (last_t d) (start_time d) (dx d) (x d) (position_noise d)
    (t d) (dt d) (observed_x d) (observed d).

(** [SliderDemo.draw], one tick: [screen_x] is [src.mouse_x], [now] and
    [now_log] what the two calls of [time.time()] return.  The result
    carries the region probabilities that the tick computes. *)
Definition draw (d : SliderDemo) (screen_x now now_log : R) (rng : Rng)
  : option (SliderDemo * list float * Rng) :=
  '(d1, rng1) <- update_state d screen_x now rng ;;
  let '(d2, rng2) := update_filter d1 rng1 in
  box_weights <- box_probability (particles d2) (weights d2) (boxes d2) ;;
  _ <- paint_boxes d2 box_weights ;;
  let d3 := log d2 (log_row d2 now_log) in
  _ <- paint_estimate d3 ;;
  Some (d3, box_weights, rng2).

(** Successive ticks, one per [(screen_x, now, now_log)] of [ticks]. *)
Fixpoint run_draws (d : SliderDemo) (ticks : list (R * R * R)) (rng : Rng)
  : option (SliderDemo * Rng) :=
  match ticks with
  | [] => Some (d, rng)
  | (screen_x, now, now_log) :: ticks' =>
      '(d', _, rng') <- draw d screen_x now now_log rng ;;
      run_draws d' ticks' rng'
  end.

End SliderFilter.

(** ** Magnitudes and thresholds *)

(** The sum of the floats of [l] is finite and at most [B]. *)
Definition total_at_most (B : R) (l : list float) : Prop :=
  match fsum l with
  | fin s => s <= B
  | nan => False
  end.

(** The two [if] of [Gilbert.update] in sequence (lines 27 to 32), for
    given values [sp1] and [sp2] of its local variables [p1] and [p2]. *)
Definition update_ifs (sp1 sp2 : R) (g : Gilbert) (rng : Rng) : Gilbert * Rng :=
  let '(g1, rng1) := update_if_state_0 sp1 g rng in
  update_if_state_1 sp2 g1 rng1.

(** ** clamp and colorscale

    A Python [str] whose characters all lie below U+0100 is a [string]:
    one [ascii] per character. *)

(** [clamp(val, minimum, maximum)]; the defaults are 0 and 255. *)
Definition clamp (val minimum maximum : float) : float :=
  if flt val minimum then minimum
  else if fgt val maximum then maximum
  else val.

(** [s.lstrip(c)] for a single character [c]. *)
Fixpoint lstrip (c : ascii) (s : string) : string :=
  match s with
  | EmptyString => EmptyString
  | String a s' => if Ascii.eqb a c then lstrip c s' else s
  end.

(** [s.rstrip(c)] for a single character [c]. *)
Fixpoint rstrip (c : ascii) (s : string) : string :=
  match s with
  | EmptyString => EmptyString
  | String a s' =>
      match rstrip c s' with
      | EmptyString => if Ascii.eqb a c then EmptyString else String a EmptyString
      | rest => String a rest
      end
  end.

(** [s.strip(c)] for a single character [c]. *)
Definition strip (c : ascii) (s : string) : string := rstrip c (lstrip c s).

(** The value of a hexadecimal digit, of either case. *)
Definition hex_value (c : ascii) : option Z :=
  let n := Z.of_N (N_of_ascii c) in
  if (48 <=? n)%Z && (n <=? 57)%Z then Some (n - 48)%Z
  else if (97 <=? n)%Z && (n <=? 102)%Z then Some (n - 87)%Z
  else if (65 <=? n)%Z && (n <=? 70)%Z then Some (n - 55)%Z
  else None.

(** The characters that [int] skips as white space around the digits:
    tab, line feed, vertical tab, form feed, carriage return, space,
    U+0085 and U+00A0. *)
Definition is_space (c : ascii) : bool :=
  let n := N_of_ascii c in
  ((9 <=? n) && (n <=? 13) || (n =? 32) || (n =? 133) || (n =? 160))%N.

(** [int(s, 16)] for a string [s] of the two characters [a] and [b]: two
    digits, or one digit with white space on one side, or a sign and one
    digit.  [None] is ValueError. *)
Definition int16_pair (a b : ascii) : option Z :=
  match hex_value a, hex_value b with
  | Some x, Some y => Some (16 * x + y)%Z
  | Some x, None => if is_space b then Some x else None
  | None, Some y =>
      if is_space a then Some y
      else if Ascii.eqb a "+" then Some y
      else if Ascii.eqb a "-" then Some (- y)%Z
      else None
  | None, None => None
  end.

(** [int(x)] for a float [x]: the integer towards zero; ValueError on
    [np.nan]. *)
Definition int_of_float (x : float) : option Z :=
  match x with
  | nan => None
  | fin r => Some (if Rltb r 0 then (- Zfloor (- r))%Z else Zfloor r)
  end.

(** The lower-case hexadecimal digit of a value below 16. *)
Definition hex_char (d : Z) : ascii :=
  if (d <? 10)%Z then ascii_of_N (Z.to_N (d + 48)) else ascii_of_N (Z.to_N (d + 87)).

(** The hexadecimal digits of [n >= 0], without leading zeros. *)
Fixpoint hex_digits (fuel : nat) (n : Z) : string :=
  if (n <? 16)%Z then String (hex_char n) EmptyString
  else
    match fuel with
    | O => EmptyString
    | S fuel' =>
        (hex_digits fuel' (n / 16) ++ String (hex_char (n mod 16)) EmptyString)%string
    end.

(** ["%02x" % n] *)
Definition format_02x (n : Z) : string :=
  if (n <? 0)%Z then String "-" (hex_digits (Z.to_nat (- n)) (- n))
  else if (n <? 16)%Z then String "0" (hex_digits (Z.to_nat n) n)
  else hex_digits (Z.to_nat n) n.

(** One colour channel of [colorscale]: [int(clamp(v * scalefactor))],
    for the integer [v] read from the string. *)
Definition scale_channel (v : Z) (scalefactor : float) : option Z :=
  int_of_float (clamp (fmul (fin (IZR v)) scalefactor) (fin 0) (fin 255)).

(** [colorscale(hexstr, scalefactor)].  The test [len(hexstr) != 6] is
    the last branch of the [match]; [None] is ValueError. *)
Definition colorscale (hexstr : string) (scalefactor : float) : option string :=
  let hexstr := strip "#" hexstr in
  if flt scalefactor (fin 0) then Some hexstr
  else
    match hexstr with
    | String c1 (String c2 (String c3 (String c4 (String c5
        (String c6 EmptyString))))) =>
        r <- int16_pair c1 c2 ;;
        g <- int16_pair c3 c4 ;;
        b <- int16_pair c5 c6 ;;
        r' <- scale_channel r scalefactor ;;
        g' <- scale_channel g scalefactor ;;
        b' <- scale_channel b scalefactor ;;
        Some (String "#" (format_02x r' ++ format_02x g' ++ format_02x b'))%string
    | _ => Some hexstr
    end.

(** A digit or a letter from a to f, in lower case: the characters that
    ["%02x"] writes. *)
Definition lower_hex_digit (c : ascii) : bool :=
  let n := N_of_ascii c in
  ((48 <=? n) && (n <=? 57) || (97 <=? n) && (n <=? 102))%N.

(** The fill colour of one box in the loop of [draw]: scaled by the
    probability of the box when particles or the block are shown. *)
Definition box_fill (d : SliderDemo) (box : Box) (box_w : float) : option string :=
  if show_particles d || show_block d then colorscale (color box) box_w
  else Some (color box).

(** * Properties *)

(** ** Boolean comparisons *)

Lemma Rltb_true (a b : R) : a < b -> Rltb a b = true.
Proof. intros H. unfold Rltb. destruct (Rlt_dec a b); [reflexivity | contradiction]. Qed.

Lemma Rltb_false (a b : R) : ~ a < b -> Rltb a b = false.
Proof. intros H. unfold Rltb. destruct (Rlt_dec a b); [contradiction | reflexivity]. Qed.

Lemma Rltb_irrefl (a : R) : Rltb a a = false.
Proof. apply Rltb_false. lra. Qed.

(** Decides every [Rltb] of the goal whose two sides [lra] can order. *)
Ltac Rltb_eval :=
  repeat match goal with
         | |- context [Rltb ?a ?b] =>
             first [ rewrite (Rltb_true a b) by lra
                   | rewrite (Rltb_false a b) by lra ]
         end.

(** Decides every test [y = 0] that [fdiv] makes in the goal. *)
Ltac Req_eval :=
  repeat match goal with
         | |- context [Req_dec_T ?a ?b] =>
             let H := fresh in
             destruct (Req_dec_T a b) as [H | H];
             [ try (exfalso; lra) | try (exfalso; apply H; lra) ]
         end.

(** ** The time-scaled probability *)



Lemma ln_le_0 (b : R) : 0 < b <= 1 -> ln b <= 0.
Proof.
  intros [Hpos [Hlt | Heq]].
  - left. rewrite <- ln_1. now apply ln_increasing.
  - subst b. rewrite ln_1. lra.
Qed.





(** ** Gilbert.update *)

Lemma update_if_state_0_state (sp : R) (g : Gilbert) (rng : Rng) :
  state (fst (update_if_state_0 sp g rng)) = state g
  \/ state (fst (update_if_state_0 sp g rng)) = 1%Z.
Proof.
  unfold update_if_state_0. destruct (state g =? 0)%Z; [| now left].
  cbn. destruct (Rltb _ sp); cbn; [now right | now left].
Qed.

Lemma update_if_state_1_state (sp : R) (g : Gilbert) (rng : Rng) :
  state (fst (update_if_state_1 sp g rng)) = state g
  \/ state (fst (update_if_state_1 sp g rng)) = 0%Z.
Proof.
  unfold update_if_state_1. destruct (state g =? 1)%Z; [| now left].
  cbn. destruct (Rltb _ sp); cbn; [now right | now left].
Qed.

Lemma update_unfold (g : Gilbert) (dt : R) (rng : Rng) :
  update g dt rng =
  let r0 := update_if_state_0 (time_scaled (p1 g) dt) g rng in
  let r1 := update_if_state_1 (time_scaled (p2 g) dt) (fst r0) (snd r0) in
  (state (fst r1), fst r1, snd r1).
Proof.
  unfold update.
  destruct (update_if_state_0 _ g rng) as [g1 rng1]; cbn.
  destruct (update_if_state_1 _ g1 rng1) as [g2 rng2]; reflexivity.
Qed.

(** The value that [update] returns is the state it leaves in the object. *)
Lemma update_returns_state (g : Gilbert) (dt : R) (rng : Rng) :
  fst (fst (update g dt rng)) = state (snd (fst (update g dt rng))).
Proof. rewrite update_unfold. reflexivity. Qed.

(** One call keeps the state among 0 and 1. *)
Lemma update_state_01 (g : Gilbert) (dt : R) (rng : Rng) :
  state g = 0%Z \/ state g = 1%Z ->
  state (snd (fst (update g dt rng))) = 0%Z
  \/ state (snd (fst (update g dt rng))) = 1%Z.
Proof.
  intros Hg. rewrite update_unfold. cbn.
  pose proof (update_if_state_0_state (time_scaled (p1 g) dt) g rng) as H0.
  set (r0 := update_if_state_0 (time_scaled (p1 g) dt) g rng) in *.
  pose proof (update_if_state_1_state (time_scaled (p2 g) dt) (fst r0) (snd r0)) as H1.
  destruct H1 as [H1 | H1]; rewrite H1; [| now left].
  destruct H0 as [H0 | H0]; rewrite H0; [assumption | now right].
Qed.

Lemma run_updates_state_01 (dts : list R) (g : Gilbert) (rng : Rng) :
  state g = 0%Z \/ state g = 1%Z ->
  state (fst (run_updates g dts rng)) = 0%Z
  \/ state (fst (run_updates g dts rng)) = 1%Z.
Proof.
  revert g rng. induction dts as [| dt dts IH]; intros g rng Hg; cbn.
  - assumption.
  - pose proof (update_state_01 g dt rng Hg) as Hstep.
    destruct (update g dt rng) as [[s g'] rng']. cbn in Hstep.
    now apply IH.
Qed.


(** ** Floats *)

Lemma flt_nan_l (a : float) : flt nan a = false.
Proof. reflexivity. Qed.

Lemma flt_nan_r (a : float) : flt a nan = false.
Proof. destruct a; reflexivity. Qed.


Lemma nonneg_fin (a : float) : nonneg a -> exists x : R, a = fin x /\ 0 <= x.
Proof. destruct a as [| x]; [contradiction | intros H; now exists x]. Qed.

Lemma positive_fin (a : float) : positive a -> exists x : R, a = fin x /\ 0 < x.
Proof. destruct a as [| x]; [contradiction | intros H; now exists x]. Qed.

Lemma fsum_positive (l : list float) :
  l <> [] -> Forall positive l -> positive (fsum l).
Proof.
  intros Hne Hall. induction Hall as [| a l Ha Hall IH]; [contradiction |].
  apply positive_fin in Ha. destruct Ha as [x [-> Hx]]. cbn.
  destruct l as [| b l'].
  - cbn. lra.
  - assert (Hl : positive (fsum (b :: l'))) by (apply IH; discriminate).
    apply positive_fin in Hl. destruct Hl as [s [-> Hs]]. cbn. lra.
Qed.

(** Dividing every term divides the sum. *)
Lemma fsum_fdiv (l : list float) (t : R) :
  t <> 0 -> Forall positive l ->
  fsum (map (fun p => fdiv p (fin t)) l) = fdiv (fsum l) (fin t).
Proof.
  intros Ht Hall. induction Hall as [| a l Ha Hall IH].
  - cbn. destruct (Req_dec_T t 0); [contradiction |]. f_equal. field. assumption.
  - apply positive_fin in Ha. destruct Ha as [x [-> Hx]]. cbn [map fsum].
    rewrite IH. destruct l as [| b l'].
    + cbn. destruct (Req_dec_T t 0); [contradiction |]. cbn. f_equal. field. assumption.
    + assert (Hl : positive (fsum (b :: l')))
        by (apply fsum_positive; [discriminate | assumption]).
      apply positive_fin in Hl. destruct Hl as [s [Es Hs]]. rewrite Es. cbn.
      destruct (Req_dec_T t 0); [contradiction |]. cbn. f_equal. field. assumption.
Qed.

(** ** The mask and the selection *)

Lemma in_box_length (box : Box) (xs : list float) :
  length (in_box box xs) = length xs.
Proof. apply length_map. Qed.

Lemma box_posterior_nil (box : Box) : box_posterior [] [] box = Some (fin 0).
Proof. reflexivity. Qed.

(** One more particle: its weight times the prior joins the sum when the
    particle is strictly inside the box, and nothing changes otherwise. *)
Lemma box_posterior_cons (box : Box) (x w : float) (xs ws : list float) :
  box_posterior (x :: xs) (w :: ws) box =
  s <- box_posterior xs ws box ;;
  Some (if fgt x (fin (left box)) && flt x (fin (right box))
        then fadd (fmul w (fin (prior box))) s else s).
Proof.
  unfold box_posterior.
  change (in_box box (x :: xs))
    with ((fgt x (fin (left box)) && flt x (fin (right box))) :: in_box box xs).
  cbn [mask_select].
  destruct (mask_select (in_box box xs) ws) as [sel |]; cbn [bind]; [| reflexivity].
  destruct (fgt x (fin (left box)) && flt x (fin (right box))); reflexivity.
Qed.



(** ** The sign of the scores *)

Lemma cloud_ok_of_nonneg (xs ws : list float) :
  length xs = length ws -> Forall nonneg ws -> cloud_ok xs ws.
Proof.
  revert ws. induction xs as [| x xs IH]; intros [| w ws] Hlen Hall;
    try discriminate; constructor.
  - right. now inversion Hall.
  - apply IH; [now injection Hlen | now inversion Hall].
Qed.

Lemma box_posterior_nonneg (box : Box) (xs ws : list float) :
  cloud_ok xs ws -> 0 <= prior box ->
  exists s : R, box_posterior xs ws box = Some (fin s) /\ 0 <= s.
Proof.
  intros Hok Hprior. induction Hok as [| x w xs ws Hxw Hok IH].
  - exists 0. split; [reflexivity | lra].
  - destruct IH as [s [Es Hs]]. rewrite box_posterior_cons, Es. cbn [bind].
    destruct Hxw as [-> | Hw].
    + cbn. now exists s.
    + apply nonneg_fin in Hw. destruct Hw as [y [-> Hy]].
      destruct (fgt x (fin (left box)) && flt x (fin (right box))).
      * exists (y * prior box + s). split; [reflexivity | nra].
      * now exists s.
Qed.

Lemma box_posteriors_nonneg (boxes : list Box) (xs ws : list float) :
  cloud_ok xs ws -> Forall (fun box => 0 <= prior box) boxes ->
  exists probs : list float,
    box_posteriors xs ws boxes = Some probs
    /\ length probs = length boxes /\ Forall nonneg probs.
Proof.
  intros Hok Hpriors. induction Hpriors as [| box boxes Hbox Hpriors IH].
  - exists []. repeat split. constructor.
  - destruct IH as [probs [Eprobs [Hlen Hall]]].
    destruct (box_posterior_nonneg box xs ws Hok Hbox) as [s [Es Hs]].
    exists (fin s :: probs). cbn. rewrite Es, Eprobs. cbn.
    repeat split; [now rewrite Hlen | now constructor].
Qed.

Lemma smooth_positive (probs : list float) :
  Forall nonneg probs -> Forall positive (smooth probs).
Proof.
  intros Hall. induction Hall as [| a l Ha Hall IH]; cbn; constructor.
  - apply nonneg_fin in Ha. destruct Ha as [x [-> Hx]]. cbn. lra.
  - exact IH.
Qed.

(** Normalising positive scores gives positive entries that sum to 1. *)
Lemma normalise_positive (probs : list float) :
  probs <> [] -> Forall positive probs ->
  Forall positive (normalise probs) /\ fsum (normalise probs) = fin 1.
Proof.
  intros Hne Hall. unfold normalise.
  pose proof (fsum_positive probs Hne Hall) as Hsum.
  apply positive_fin in Hsum. destruct Hsum as [t [Et Ht]]. rewrite Et.
  split.
  - apply Forall_map. eapply Forall_impl; [| exact Hall].
    intros a Ha. apply positive_fin in Ha. destruct Ha as [x [-> Hx]]. cbn.
    destruct (Req_dec_T t 0); [lra |]. cbn. now apply Rdiv_pos_pos.
  - rewrite fsum_fdiv; [| lra | assumption]. rewrite Et. cbn.
    destruct (Req_dec_T t 0); [lra |]. f_equal. field. assumption.
Qed.

(** The whole function, on a cloud and priors of the right sign. *)
Lemma box_probability_simplex (xs_v : list Particle) (ws : list float)
    (boxes : list Box) :
  boxes <> [] -> cloud_ok (column0 xs_v) ws ->
  Forall (fun box => 0 <= prior box) boxes ->
  exists posteriors probs : list float,
    box_posteriors (column0 xs_v) ws boxes = Some posteriors
    /\ box_scores xs_v ws boxes = Some (smooth posteriors)
    /\ box_probability xs_v ws boxes = Some probs
    /\ length probs = length boxes
    /\ Forall positive probs
    /\ fsum probs = fin 1.
Proof.
  intros Hne Hok Hpriors.
  destruct (box_posteriors_nonneg boxes _ _ Hok Hpriors) as [post [Epost [Hlen Hall]]].
  exists post, (normalise (smooth post)).
  unfold box_probability, box_scores. rewrite Epost. cbn.
  assert (Hsm : smooth post <> []).
  { destruct post; [| discriminate]. destruct boxes; [contradiction | discriminate]. }
  destruct (normalise_positive (smooth post) Hsm (smooth_positive post Hall)) as [Hpos Hone].
  repeat split; try assumption.
  unfold normalise, smooth. now rewrite !length_map.
Qed.

(** The sign of the priors matters: one region of prior [-1e-6] that
    holds the whole cloud scores 0 after smoothing, and the division
    gives a non-finite value. *)
Example box_probability_negative_prior :
  box_probability [(fin 0.5, fin 0)] [fin 1] [Box_init "N"%string 0 1 (-1e-6) "#000000"%string]
  = Some [nan].
Proof.
  unfold box_probability, box_scores, box_posteriors, box_posterior, column0, in_box.
  cbn. Rltb_eval. cbn.
  Req_eval. reflexivity.
Qed.

(** ** Clouds and priors of bounded magnitude *)

Lemma fsum_nonneg (l : list float) :
  Forall nonneg l -> exists s : R, fsum l = fin s /\ 0 <= s.
Proof.
  intros Hall. induction Hall as [| a l Ha Hall IH].
  - exists 0. split; [reflexivity | lra].
  - destruct IH as [s [Es Hs]]. apply nonneg_fin in Ha. destruct Ha as [x [-> Hx]].
    exists (x + s). cbn. rewrite Es. split; [reflexivity | lra].
Qed.

(** The sum of a box is at most the prior times the total weight. *)
Lemma box_posterior_bounded (box : Box) (xs ws : list float) :
  length xs = length ws -> Forall nonneg ws -> 0 <= prior box ->
  exists s S : R,
    box_posterior xs ws box = Some (fin s) /\ fsum ws = fin S
    /\ 0 <= s <= prior box * S.
Proof.
  intros Hlen Hall Hprior. revert xs Hlen.
  induction Hall as [| w ws Hw Hall IH]; intros [| x xs] Hlen; try discriminate.
  - exists 0, 0. repeat split; lra.
  - destruct (IH xs) as [s [S [Es [ES Hs]]]]; [now injection Hlen |].
    apply nonneg_fin in Hw. destruct Hw as [y [-> Hy]].
    rewrite box_posterior_cons, Es. cbn [bind fsum]. rewrite ES.
    destruct (fgt x (fin (left box)) && flt x (fin (right box))).
    + exists (y * prior box + s), (y + S). repeat split; nra.
    + exists s, (y + S). repeat split; nra.
Qed.

Lemma box_posteriors_bounded (boxes : list Box) (xs ws : list float) (W P : R) :
  length xs = length ws -> Forall nonneg ws -> total_at_most W ws ->
  Forall (fun box => 0 <= prior box <= P) boxes ->
  exists post : list float,
    box_posteriors xs ws boxes = Some post
    /\ Forall (fun p => exists r : R, p = fin r /\ 0 <= r <= P * W) post.
Proof.
  intros Hlen Hall Htotal Hpriors.
  induction Hpriors as [| box boxes Hbox Hpriors IH].
  - exists []. split; [reflexivity | constructor].
  - destruct IH as [post [Epost Hpost]].
    destruct (box_posterior_bounded box xs ws Hlen Hall) as [s [S [Es [ES Hs]]]];
      [lra |].
    unfold total_at_most in Htotal. rewrite ES in Htotal.
    destruct (fsum_nonneg ws Hall) as [S' [ES' HS']].
    assert (S' = S) by congruence. subst S'.
    exists (fin s :: post). cbn. rewrite Es, Epost. cbn. split; [reflexivity |].
    constructor; [| assumption].
    exists s. split; [reflexivity |]. split; [lra |].
    apply Rle_trans with (prior box * S); [lra |].
    apply Rmult_le_compat; lra.
Qed.

(** The whole function on a cloud and priors of bounded magnitude: the
    scores stay between [1e-6] and the bound, and the result is a point
    of the simplex. *)
Lemma box_probability_bounded
    (particles : list Particle) (weights : list float) (boxes : list Box) :
  boxes <> [] ->
  length particles = length weights ->
  Forall nonneg weights ->
  total_at_most 1e100 weights ->
  Forall (fun box => 0 <= prior box <= 1e100) boxes ->
  exists post probs : list float,
    box_posteriors (column0 particles) weights boxes = Some post
    /\ Forall (fun s => exists r : R,
                 s = fin r /\ 1e-6 <= r <= 1e100 * 1e100 + 1e-6) (smooth post)
    /\ box_scores particles weights boxes = Some (smooth post)
    /\ box_probability particles weights boxes = Some probs
    /\ length probs = length boxes
    /\ Forall positive probs
    /\ fsum probs = fin 1.
Proof.
  intros Hne Hlen Hw Htotal Hpriors.
  assert (Hlen0 : length (column0 particles) = length weights)
    by (unfold column0; now rewrite length_map).
  assert (Hok : cloud_ok (column0 particles) weights)
    by now apply cloud_ok_of_nonneg.
  assert (Hpriors0 : Forall (fun box => 0 <= prior box) boxes).
  { eapply Forall_impl; [| exact Hpriors]. cbv beta. intros b Hb. lra. }
  destruct (box_probability_simplex particles weights boxes Hne Hok Hpriors0)
    as [post [probs [Epost [Escores [Eprobs [Hlp [Hpos Hone]]]]]]].
  destruct (box_posteriors_bounded boxes _ _ 1e100 1e100 Hlen0 Hw Htotal Hpriors)
    as [post' [Epost' Hbound]].
  assert (post' = post) by congruence. subst post'.
  exists post, probs. repeat split; try assumption.
  unfold smooth. apply Forall_map. eapply Forall_impl; [| exact Hbound].
  intros p [r [-> Hr]]. exists (r + 1e-6). split; [reflexivity | lra].
Qed.

(** ** The region posterior: the claims *)

(** C1.  For a non-empty list of regions whose priors lie between 0 and
    1e100, and a cloud of as many weights as particles, the weights
    finite, not negative and of a sum at most 1e100 (magnitudes with
    which no operation of the function overflows), [box_probability]
    returns one entry per region and the entries sum to 1; the scores it
    normalises lie between 1e-6 and 1e100 * 1e100 + 1e-6.  No particle
    has to be inside a region: the statement covers the cloud that leaves
    every score at zero before smoothing. *)
Theorem box_probability_sums_to_1
    (particles : list Particle) (weights : list float) (boxes : list Box) :
  boxes <> [] ->
  length particles = length weights ->
  Forall nonneg weights ->
  total_at_most 1e100 weights ->
  Forall (fun box => 0 <= prior box <= 1e100) boxes ->
  exists scores probs : list float,
    box_scores particles weights boxes = Some scores
    /\ Forall (fun s => exists r : R,
                 s = fin r /\ 1e-6 <= r <= 1e100 * 1e100 + 1e-6) scores
    /\ box_probability particles weights boxes = Some probs
    /\ length probs = length boxes
    /\ fsum probs = fin 1.
Proof.
  intros Hne Hlen Hw Htotal Hpriors.
  destruct (box_probability_bounded particles weights boxes Hne Hlen Hw Htotal Hpriors)
    as [post [probs [_ [Hbound [Escores [Eprobs [Hlp [_ Hone]]]]]]]].
  exists (smooth post), probs. now repeat split.
Qed.

Lemma box_probability_sums_to_1_witness :
  exists scores probs : list float,
    box_scores [(fin 2, fin 0); (fin 3, fin 0)] [fin 0.5; fin 0.5]
      create_slider_boxes = Some scores
    /\ Forall (fun s => exists r : R,
                 s = fin r /\ 1e-6 <= r <= 1e100 * 1e100 + 1e-6) scores
    /\ box_probability [(fin 2, fin 0); (fin 3, fin 0)] [fin 0.5; fin 0.5]
         create_slider_boxes = Some probs
    /\ length probs = length create_slider_boxes
    /\ fsum probs = fin 1.
Proof.
  apply box_probability_sums_to_1.
  - discriminate.
  - reflexivity.
  - repeat constructor; cbn [nonneg prior Box_init]; lra.
  - unfold total_at_most. cbn [fsum fadd app]. lra.
  - repeat constructor; cbn [nonneg prior Box_init]; lra.
Defined.



(** C5.  Under the conditions of C1 (a non-empty list of regions with
    priors between 0 and 1e100, as many weights as particles, the weights
    finite, not negative and of a sum at most 1e100), the scores that
    [box_probability] normalises are the prior-weighted sums with [1e-6]
    added to each, every score is at least 1e-6, and every entry of the
    result is a finite number above 0, wherever the particles are. *)
Theorem box_probability_entries_positive
    (particles : list Particle) (weights : list float) (boxes : list Box) :
  boxes <> [] ->
  length particles = length weights ->
  Forall nonneg weights ->
  total_at_most 1e100 weights ->
  Forall (fun box => 0 <= prior box <= 1e100) boxes ->
  exists posteriors probs : list float,
    box_posteriors (column0 particles) weights boxes = Some posteriors
    /\ box_scores particles weights boxes
       = Some (map (fun p => fadd p (fin 1e-6)) posteriors)
    /\ Forall (fun s => exists r : R,
                 s = fin r /\ 1e-6 <= r <= 1e100 * 1e100 + 1e-6)
         (map (fun p => fadd p (fin 1e-6)) posteriors)
    /\ box_probability particles weights boxes = Some probs
    /\ Forall positive probs.
Proof.
  intros Hne Hlen Hw Htotal Hpriors.
  destruct (box_probability_bounded particles weights boxes Hne Hlen Hw Htotal Hpriors)
    as [post [probs [Epost [Hbound [Escores [Eprobs [_ [Hpos _]]]]]]]].
  exists post, probs. now repeat split.
Qed.

Lemma box_probability_entries_positive_witness :
  exists posteriors probs : list float,
    box_posteriors (column0 [(fin 2, fin 0); (fin 3, fin 0)]) [fin 0.5; fin 0.5]
      create_slider_boxes = Some posteriors
    /\ box_scores [(fin 2, fin 0); (fin 3, fin 0)] [fin 0.5; fin 0.5]
         create_slider_boxes
       = Some (map (fun p => fadd p (fin 1e-6)) posteriors)
    /\ Forall (fun s => exists r : R,
                 s = fin r /\ 1e-6 <= r <= 1e100 * 1e100 + 1e-6)
         (map (fun p => fadd p (fin 1e-6)) posteriors)
    /\ box_probability [(fin 2, fin 0); (fin 3, fin 0)] [fin 0.5; fin 0.5]
         create_slider_boxes = Some probs
    /\ Forall positive probs.
Proof.
  apply box_probability_entries_positive.
  - discriminate.
  - reflexivity.
  - repeat constructor; cbn [nonneg prior Box_init]; lra.
  - unfold total_at_most. cbn [fsum fadd app]. lra.
  - repeat constructor; cbn [nonneg prior Box_init]; lra.
Defined.

(** C6.  The end-to-end scenario: the three regions of [create_slider] and
    four particles at 0.05, 0.5, 0.5 and 0.95 (of any velocity), each of
    weight 0.25.  The scores before normalisation are 0.0625 + 1e-6,
    0.125 + 1e-6 and 0.125 + 1e-6, and the result is within 1e-3 of
    0.2, 0.4, 0.4. *)
Theorem box_probability_scenario (v1 v2 v3 v4 : float) :
  let particles := [(fin 0.05, v1); (fin 0.5, v2); (fin 0.5, v3); (fin 0.95, v4)] in
  let weights := [fin 0.25; fin 0.25; fin 0.25; fin 0.25] in
  box_scores particles weights create_slider_boxes
  = Some [fin (0.0625 + 1e-6); fin (0.125 + 1e-6); fin (0.125 + 1e-6)]
  /\ exists a x b : R,
       box_probability particles weights create_slider_boxes
       = Some [fin a; fin x; fin b]
       /\ Rabs (a - 0.2) < 1e-3
       /\ Rabs (x - 0.4) < 1e-3
       /\ Rabs (b - 0.4) < 1e-3.
Proof.
  intros particles weights.
  assert (Escores : box_scores particles weights create_slider_boxes
    = Some [fin (0.0625 + 1e-6); fin (0.125 + 1e-6); fin (0.125 + 1e-6)]).
  { unfold box_scores, box_posteriors, box_posterior, column0, in_box,
      particles, weights, create_slider_boxes, Box_init.
    cbn. Rltb_eval. cbn. repeat f_equal; lra. }
  split; [exact Escores |].
  unfold box_probability. rewrite Escores. cbn. Req_eval.
  eexists _, _, _. split; [reflexivity |].
  repeat split; apply Rabs_def1; lra.
Qed.



(** ** The burst channel: the claims *)

Lemma time_scaled_1 (p : R) : p < 1 -> time_scaled p 1 = p.
Proof. intros Hp. unfold time_scaled. rewrite Rpower_1; lra. Qed.

(** The scaled probability grows with the elapsed time. *)
Lemma time_scaled_monotone (p dt1 dt2 : R) :
  0 <= p < 1 -> dt1 <= dt2 -> time_scaled p dt1 <= time_scaled p dt2.
Proof.
  intros Hp Hdt. unfold time_scaled, Rpower.
  assert (Hln : ln (1 - p) <= 0) by (apply ln_le_0; lra).
  assert (Hexp : dt2 * ln (1 - p) <= dt1 * ln (1 - p)) by nra.
  destruct Hexp as [Hlt | Heq].
  - apply exp_increasing in Hlt. lra.
  - rewrite Heq. lra.
Qed.

(** From state 1 a call draws once and moves at most once: the first [if]
    does nothing and the second decides. *)
Lemma update_from_state_1 (g : Gilbert) (dt : R) (rng : Rng) :
  state g = 1%Z ->
  update g dt rng =
  (if Rltb (uniform_draws rng (uniform_used rng)) (time_scaled (p2 g) dt)
   then (0%Z, set_state g 0%Z, snd (random rng))
   else (1%Z, g, snd (random rng))).
Proof.
  intros Hs. rewrite update_unfold. unfold update_if_state_0. rewrite Hs. cbn.
  unfold update_if_state_1. rewrite Hs. cbn.
  destruct (Rltb _ (time_scaled (p2 g) dt)); cbn; [reflexivity | now rewrite Hs].
Qed.

(** From state 0 a first draw that does not fire ends the call. *)
Lemma update_from_state_0_stay (g : Gilbert) (dt : R) (rng : Rng) :
  state g = 0%Z ->
  ~ uniform_draws rng (uniform_used rng) < time_scaled (p1 g) dt ->
  update g dt rng = (0%Z, g, snd (random rng)).
Proof.
  intros Hs Hu. rewrite update_unfold. unfold update_if_state_0. rewrite Hs. cbn.
  rewrite (Rltb_false _ _ Hu). cbn.
  unfold update_if_state_1. rewrite Hs. cbn. now rewrite Hs.
Qed.

(** From state 0 a first draw that fires moves the channel to state 1, and
    the second [if] then draws again, for the way back. *)
Lemma update_from_state_0_fire (g : Gilbert) (dt : R) (rng : Rng) :
  state g = 0%Z ->
  uniform_draws rng (uniform_used rng) < time_scaled (p1 g) dt ->
  update g dt rng =
  (if Rltb (uniform_draws rng (S (uniform_used rng))) (time_scaled (p2 g) dt)
   then (0%Z, set_state g 0%Z, snd (random (snd (random rng))))
   else (1%Z, set_state g 1%Z, snd (random (snd (random rng))))).
Proof.
  intros Hs Hu. rewrite update_unfold. unfold update_if_state_0. rewrite Hs. cbn.
  rewrite (Rltb_true _ _ Hu). cbn.
  destruct (Rltb _ (time_scaled (p2 g) dt)); reflexivity.
Qed.

(** C2.  [Gilbert(0.5, 0.3)], in state 0, is advanced by [dt = 1] while the
    generator returns 0.1 twice.  The scaled probabilities are 0.5 and
    0.3.  The first [if] draws 0.1 and moves the channel to state 1; the
    second [if] then sees state 1, draws a second sample and moves the
    channel back: the call has consumed two samples, made two
    transitions and returns 0. *)
Theorem update_draws_twice_from_state_0 :
  let g := Gilbert_init 0.5 0.3 in
  let rng := mkRng (fun _ => 0.1) (fun _ => 0) 0 0 in
  let after_first_if := update_if_state_0 (time_scaled (p1 g) 1) g rng in
  uniform_ok rng
  /\ time_scaled (p1 g) 1 = 0.5
  /\ time_scaled (p2 g) 1 = 0.3
  /\ state g = 0%Z
  /\ state (fst after_first_if) = 1%Z
  /\ uniform_used (snd after_first_if) = 1%nat
  /\ update g 1 rng = (0%Z, g, mkRng (fun _ => 0.1) (fun _ => 0) 2 0).
Proof.
  intros g rng after_first_if.
  assert (E1 : time_scaled (p1 g) 1 = 0.5) by (apply time_scaled_1; cbn; lra).
  assert (E2 : time_scaled (p2 g) 1 = 0.3) by (apply time_scaled_1; cbn; lra).
  split; [intros n; cbn; lra |].
  split; [exact E1 |]. split; [exact E2 |]. split; [reflexivity |].
  unfold after_first_if. rewrite E1.
  assert (Hfirst : update_if_state_0 0.5 g rng
                   = (set_state g 1%Z, mkRng (fun _ => 0.1) (fun _ => 0) 1 0)).
  { unfold update_if_state_0. cbn. Rltb_eval. reflexivity. }
  rewrite Hfirst. split; [reflexivity |]. split; [reflexivity |].
  rewrite update_from_state_0_fire; [| reflexivity | rewrite E1; cbn; lra].
  rewrite E2. cbn. Rltb_eval. reflexivity.
Qed.



(** C10.  The constructor leaves the state at 0.  After any number of
    calls of [update], with any elapsed times and any draws, the state is
    0 or 1, one more call leaves it 0 or 1, and that call returns the
    state it has left in the object. *)
Theorem gilbert_state_is_0_or_1 (a b : R) :
  state (Gilbert_init a b) = 0%Z
  /\ (forall (dts : list R) (dt : R) (rng : Rng),
        let reached := run_updates (Gilbert_init a b) dts rng in
        let after := update (fst reached) dt (snd reached) in
        (state (fst reached) = 0%Z \/ state (fst reached) = 1%Z)
        /\ (state (snd (fst after)) = 0%Z \/ state (snd (fst after)) = 1%Z)
        /\ fst (fst after) = state (snd (fst after))).
Proof.
  split; [reflexivity |].
  intros dts dt rng reached after.
  assert (Hreached : state (fst reached) = 0%Z \/ state (fst reached) = 1%Z)
    by (apply run_updates_state_01; now left).
  split; [exact Hreached |]. split.
  - now apply update_state_01.
  - apply update_returns_state.
Qed.

(** ** The tick *)

Lemma time_scaled_pos (p dt : R) :
  0 < p < 1 -> 0 < dt -> 0 < time_scaled p dt.
Proof.
  intros Hp Hdt. unfold time_scaled, Rpower.
  assert (Hln : ln (1 - p) < 0)
    by (rewrite <- ln_1; apply ln_increasing; lra).
  assert (Hexp : dt * ln (1 - p) < 0) by nra.
  apply exp_increasing in Hexp. rewrite exp_0 in Hexp. lra.
Qed.

Lemma update_keeps_draws (g : Gilbert) (dt : R) (rng : Rng) :
  uniform_draws (snd (update g dt rng)) = uniform_draws rng.
Proof.
  rewrite update_unfold. cbn.
  unfold update_if_state_1, update_if_state_0, random.
  destruct (state g =? 0)%Z; cbn.
  - destruct (Rltb _ (time_scaled (p1 g) dt)); cbn.
    + destruct (Rltb _ (time_scaled (p2 g) dt)); reflexivity.
    + destruct (state g =? 1)%Z; cbn; [| reflexivity].
      destruct (Rltb _ (time_scaled (p2 g) dt)); reflexivity.
  - destruct (state g =? 1)%Z; cbn; [| reflexivity].
    destruct (Rltb _ (time_scaled (p2 g) dt)); reflexivity.
Qed.

Lemma elapsed_total (d : SliderDemo) (screen_x now : R) :
  last_x d = None \/ now <> last_t d ->
  exists r : R * R * R, elapsed d screen_x now = Some r.
Proof.
  intros Hcase. unfold elapsed. destruct (last_x d) as [lx |].
  - destruct Hcase as [Hnone | Hne]; [discriminate |].
    destruct (Req_dec_T (now - last_t d) 0) as [Hz | _]; [| eauto].
    exfalso. apply Hne. lra.
  - eauto.
Qed.

(** What [update_state] leaves behind: the channel after one [update],
    and an [observed] that is false whenever the channel is not in state
    0 and the bursty observation probability is 0. *)
Lemma update_state_spec (d d1 : SliderDemo) (screen_x now : R) (rng rng1 : Rng) :
  update_state d screen_x now rng = Some (d1, rng1) ->
  exists x' dx' dt' : R,
    elapsed d screen_x now = Some (x', dx', dt')
    /\ gilbert d1 = snd (fst (update (gilbert d) dt' rng))
    /\ uniform_draws rng1 = uniform_draws rng
    /\ sampling_intermittency d1 = sampling_intermittency d
    /\ logger d1 = logger d
    /\ boxes d1 = boxes d
    /\ (uniform_ok rng -> sampling_intermittency d = 0 ->
        state (gilbert d1) <> 0%Z -> observed d1 = false).
Proof.
  unfold update_state.
  destruct (elapsed d screen_x now) as [[[x' dx'] dt'] |]; [| discriminate].
  cbn [bind]. pose proof (update_keeps_draws (gilbert d) dt' rng) as Hdraws.
  destruct (update (gilbert d) dt' rng) as [[s g'] rngu] eqn:Eu. cbn in Hdraws.
  unfold normal, uniform, random. cbn.
  intros H. inversion H; subst d1 rng1; clear H. cbn.
  exists x', dx', dt'. rewrite Eu. cbn. repeat split; try assumption.
  intros Hok Hs Hst. rewrite Hs.
  destruct (state g' =? 0)%Z eqn:E; [apply Z.eqb_eq in E; contradiction |].
  apply Rltb_false. specialize (Hok (uniform_used rngu)).
  rewrite <- Hdraws in Hok. lra.
Qed.

Lemma update_state_total (d : SliderDemo) (screen_x now : R) (rng : Rng) :
  last_x d = None \/ now <> last_t d ->
  exists (d1 : SliderDemo) (rng1 : Rng),
    update_state d screen_x now rng = Some (d1, rng1).
Proof.
  intros Hcase. destruct (elapsed_total d screen_x now Hcase) as [[[x' dx'] dt'] E].
  unfold update_state. rewrite E. cbn [bind].
  destruct (update (gilbert d) dt' rng) as [[s g'] rngu].
  unfold normal, uniform, random. cbn. eauto.
Qed.

Lemma mask_select_total (mask : list bool) (ws : list float) :
  length mask = length ws -> exists sel, mask_select mask ws = Some sel.
Proof.
  revert ws. induction mask as [| m mask IH]; intros [| w ws] Hlen;
    try discriminate; cbn.
  - eauto.
  - destruct (IH ws) as [sel E]; [now injection Hlen |]. rewrite E. cbn. eauto.
Qed.

(** [box_probability] raises on no cloud of as many weights as particles. *)
Lemma box_probability_total (ps : list Particle) (ws : list float) (bs : list Box) :
  length ps = length ws ->
  exists probs, box_probability ps ws bs = Some probs /\ length probs = length bs.
Proof.
  intros Hlen.
  assert (Hpost : exists post, box_posteriors (column0 ps) ws bs = Some post
                               /\ length post = length bs).
  { induction bs as [| b bs IH]; cbn; [now exists [] |].
    destruct IH as [post [E Hl]].
    destruct (mask_select_total (in_box b (column0 ps)) ws) as [sel Esel].
    { rewrite in_box_length. unfold column0. now rewrite length_map. }
    unfold box_posterior. rewrite Esel, E. cbn.
    eexists. split; [reflexivity |]. cbn. now rewrite Hl. }
  destruct Hpost as [post [E Hl]].
  unfold box_probability, box_scores. rewrite E. cbn.
  eexists. split; [reflexivity |].
  unfold normalise, smooth. now rewrite !length_map.
Qed.

Section Tick.

Variable filter_step :
  list Particle -> float * float -> R -> R -> Rng ->
  list Particle * list float * Rng.
Variable expected_position : list Particle -> list float -> float * float.
Variable variance_position : list Particle -> list float -> float * float.
Variable paint_boxes : SliderDemo -> list float -> option unit.
Variable paint_estimate : SliderDemo -> option unit.

Local Abbreviation filtered := (update_filter filter_step).
Local Abbreviation row_of := (log_row expected_position variance_position).
Local Abbreviation tick :=
  (draw filter_step expected_position variance_position paint_boxes paint_estimate).
Local Abbreviation ticks_of :=
  (run_draws filter_step expected_position variance_position
     paint_boxes paint_estimate).

(** [update_filter] hands [observation] to the filter and replaces the
    cloud; it touches nothing else. *)
Lemma update_filter_spec (d1 : SliderDemo) (rng1 : Rng) :
  let d2 := fst (filtered d1 rng1) in
  filter_step (particles d1) (observation d1) (dt d1) 0.00005 rng1
  = (particles d2, weights d2, snd (filtered d1 rng1))
  /\ gilbert d2 = gilbert d1
  /\ observed d2 = observed d1
  /\ observed_x d2 = observed_x d1
  /\ logger d2 = logger d1
  /\ sampling_intermittency d2 = sampling_intermittency d1.
Proof.
  unfold update_filter.
  destruct (filter_step (particles d1) (observation d1) (dt d1) 0.00005 rng1)
    as [[ps' ws'] rngf]. cbn. repeat split.
Qed.

(** A tick that completes has gone through [update_state] and
    [update_filter] and has added its row to the log. *)
Lemma draw_spec (d d' : SliderDemo) (screen_x now now_log : R) (rng rng' : Rng)
    (box_weights : list float) :
  tick d screen_x now now_log rng = Some (d', box_weights, rng') ->
  exists (d1 : SliderDemo) (rng1 : Rng),
    update_state d screen_x now rng = Some (d1, rng1)
    /\ d' = log (fst (filtered d1 rng1)) (row_of (fst (filtered d1 rng1)) now_log)
    /\ rng' = snd (filtered d1 rng1).
Proof.
  unfold draw.
  destruct (update_state d screen_x now rng) as [[d1 rng1] |]; [| discriminate].
  cbn [bind]. destruct (filtered d1 rng1) as [d2 rng2] eqn:Ef.
  destruct (box_probability (particles d2) (weights d2) (boxes d2)) as [bw |];
    [| discriminate].
  cbn [bind]. destruct (paint_boxes d2 bw); [| discriminate].
  cbn [bind]. destruct (paint_estimate _); [| discriminate].
  cbn [bind]. intros H. injection H as <- _ <-.
  exists d1, rng1. now rewrite Ef.
Qed.

(** A tick completes when the clock has moved, the filter returns as many
    weights as particles and the painting does not raise. *)
Lemma draw_total (d : SliderDemo) (screen_x now now_log : R) (rng : Rng) :
  last_x d = None \/ now <> last_t d ->
  (forall ps o dt rate r,
     length (fst (fst (filter_step ps o dt rate r)))
     = length (snd (fst (filter_step ps o dt rate r)))) ->
  (forall d2 bw, paint_boxes d2 bw = Some tt) ->
  (forall d3, paint_estimate d3 = Some tt) ->
  exists r, tick d screen_x now now_log rng = Some r.
Proof.
  intros Hcase Hlens Hpb Hpe.
  destruct (update_state_total d screen_x now rng Hcase) as [d1 [rng1 E1]].
  unfold draw. rewrite E1. cbn [bind]. unfold update_filter.
  pose proof (Hlens (particles d1) (observation d1) (dt d1) 0.00005 rng1) as Hlen.
  destruct (filter_step (particles d1) (observation d1) (dt d1) 0.00005 rng1)
    as [[ps' ws'] rngf]. cbn in Hlen. cbn [particles weights boxes].
  destruct (box_probability_total ps' ws' (boxes d1) Hlen) as [probs [Eprobs _]].
  rewrite Eprobs. cbn [bind]. rewrite Hpb. cbn [bind]. rewrite Hpe. cbn [bind].
  eauto.
Qed.

(** C7.  A tick runs with draws from [0, 1) and a bursty observation
    probability of 0.  Whenever its [update_state] returns and leaves
    the channel in state 1: [observed] is false; the observation that
    [update_filter] hands to the filter has [nan] as its position; the
    row that [draw] builds for the log has mode 1 and [nan] as [obs_x];
    and a tick that completes has added exactly that row to the log. *)
Theorem bursty_tick_observes_nothing
    (d d1 : SliderDemo) (screen_x now : R) (rng rng1 : Rng) :
  uniform_ok rng ->
  sampling_intermittency d = 0 ->
  update_state d screen_x now rng = Some (d1, rng1) ->
  state (gilbert d1) = 1%Z ->
  let d2 := fst (filtered d1 rng1) in
  observed d1 = false
  /\ observation d1 = (nan, fin (Rabs (dx d1)))
  /\ filter_step (particles d1) (nan, fin (Rabs (dx d1))) (dt d1) 0.00005 rng1
     = (particles d2, weights d2, snd (filtered d1 rng1))
  /\ observed d2 = false
  /\ (forall now_log : R,
        mode (row_of d2 now_log) = 1%Z /\ obs_x (row_of d2 now_log) = nan)
  /\ (forall (now_log : R) (d' : SliderDemo) (box_weights : list float)
             (rng' : Rng),
        tick d screen_x now now_log rng = Some (d', box_weights, rng') ->
        logger d' = logger d ++ [row_of d2 now_log]
        /\ observed d' = false).
Proof.
  intros Hok Hs E1 Hst d2.
  destruct (update_state_spec _ _ _ _ _ _ E1)
    as [x' [dx' [dt' [_ [_ [_ [_ [Hlog [_ Hbursty]]]]]]]]].
  assert (Hfalse : observed d1 = false).
  { apply Hbursty; try assumption. rewrite Hst. discriminate. }
  assert (Hobs : observation d1 = (nan, fin (Rabs (dx d1))))
    by (unfold observation; now rewrite Hfalse).
  destruct (update_filter_spec d1 rng1) as [Hf [Hg [Ho [_ [Hl _]]]]].
  fold d2 in Hf, Hg, Ho, Hl.
  split; [exact Hfalse |]. split; [exact Hobs |].
  split; [now rewrite <- Hobs |].
  split; [now rewrite Ho |]. split.
  - intros now_log. cbn. rewrite Hg, Hst. split; [reflexivity |].
    unfold logged_obs_x. now rewrite Ho, Hfalse.
  - intros now_log d' bw rng' Ed.
    destruct (draw_spec _ _ _ _ _ _ _ _ Ed) as [d1' [rng1' [E1' [-> _]]]].
    rewrite E1 in E1'. injection E1' as <- <-. fold d2. cbn.
    rewrite Hl, Hlog, Ho. now split.
Qed.

(** What the runs need of the filter: it leaves the uniform draws in [0, 1). *)
Hypothesis filter_step_uniform_ok :
  forall ps o dt rate rng,
    uniform_ok rng -> uniform_ok (snd (filter_step ps o dt rate rng)).

(** Over any number of ticks with a bursty observation probability of 0,
    every row logged with the channel out of state 0 has [nan] as [obs_x]. *)
Lemma run_draws_bursty_rows
    (ticks : list (R * R * R)) (d d' : SliderDemo) (rng rng' : Rng) :
  uniform_ok rng ->
  sampling_intermittency d = 0 ->
  ticks_of d ticks rng = Some (d', rng') ->
  Forall (fun row => mode row <> 0%Z -> obs_x row = nan) (logger d) ->
  Forall (fun row => mode row <> 0%Z -> obs_x row = nan) (logger d').
Proof.
  revert d rng. induction ticks as [| [[screen_x now] now_log] ticks IH];
    intros d rng Hok Hs Hrun Hrows; cbn in Hrun.
  - injection Hrun as <- _. exact Hrows.
  - destruct (tick d screen_x now now_log rng) as [[[dn bw] rngn] |] eqn:Ed;
      [| discriminate].
    cbn [bind] in Hrun.
    destruct (draw_spec _ _ _ _ _ _ _ _ Ed) as [d1 [rng1 [E1 [-> ->]]]].
    destruct (update_state_spec _ _ _ _ _ _ E1)
      as [x' [dx' [dt' [_ [_ [Hdraws [Hsamp [Hlog [_ Hbursty]]]]]]]]].
    destruct (update_filter_spec d1 rng1) as [Hf [Hg [Ho [_ [Hl Hsf]]]]].
    assert (Hok1 : uniform_ok rng1)
      by (intros n; rewrite Hdraws; apply Hok).
    assert (Hokf : uniform_ok (snd (filtered d1 rng1))).
    { pose proof (filter_step_uniform_ok (particles d1) (observation d1) (dt d1)
                    0.00005 rng1 Hok1) as Hkeep.
      rewrite Hf in Hkeep. exact Hkeep. }
    refine (IH _ _ Hokf _ Hrun _); [cbn; now rewrite Hsf, Hsamp |].
    cbn. rewrite Hl, Hlog. apply Forall_app. split; [exact Hrows |].
    constructor; [| constructor]. cbn. rewrite Hg. intros Hmode.
    unfold logged_obs_x. rewrite Ho. now rewrite Hbursty.
Qed.

End Tick.

Lemma bursty_tick_observes_nothing_witness :
  let filter_step :=
    fun (ps : list Particle) (_ : float * float) (_ _ : R) (rng : Rng) =>
      (ps, map (fun _ => fin 0.5) ps, rng) in
  let moments := fun (_ : list Particle) (_ : list float) => (fin 0, fin 0) in
  let paint_boxes := fun (_ : SliderDemo) (_ : list float) => Some tt in
  let paint_estimate := fun (_ : SliderDemo) => Some tt in
  let prior_sample :=
    fun (n : nat) (rng : Rng) => ([(fin 0.5, fin 0); (fin 0.7, fin 0)], rng) in
  let rng := mkRng (fun n => match n with O => 0 | S _ => 0.5 end) (fun _ => 0) 0 0 in
  let d := fst (SliderDemo_init prior_sample create_slider_boxes
                  (mkArgs false false 0) 0 rng) in
  exists (d1 : SliderDemo) (rng1 : Rng) (d' : SliderDemo)
         (box_weights : list float) (rng' : Rng) (row : LogRow),
    update_state d 500 1 rng = Some (d1, rng1)
    /\ state (gilbert d1) = 1%Z
    /\ observed d1 = false
    /\ observation d1 = (nan, fin (Rabs (dx d1)))
    /\ draw filter_step moments moments paint_boxes paint_estimate d 500 1 2 rng
       = Some (d', box_weights, rng')
    /\ logger d' = logger d ++ [row]
    /\ mode row = 1%Z
    /\ obs_x row = nan.
Proof.
  intros filter_step moments paint_boxes paint_estimate prior_sample rng d.
  assert (Hok : uniform_ok rng) by (intros [| n]; cbn; lra).
  destruct (update_state_total d 500 1 rng (or_introl eq_refl)) as [d1 [rng1 E1]].
  assert (Hst : state (gilbert d1) = 1%Z).
  { destruct (update_state_spec _ _ _ _ _ _ E1)
      as [x' [dx' [dt' [Hel [Hg1 _]]]]].
    injection Hel as _ _ <-. rewrite Hg1.
    rewrite update_from_state_0_fire;
      [| reflexivity | cbn; apply time_scaled_pos; lra].
    assert (Hp2 : time_scaled 0.3 (1 / 60.0) <= 0.3).
    { rewrite <- (time_scaled_1 0.3) at 2 by lra.
      apply time_scaled_monotone; lra. }
    cbn. rewrite Rltb_false by lra. reflexivity. }
  destruct (bursty_tick_observes_nothing filter_step moments moments
              paint_boxes paint_estimate d d1 500 1 rng rng1 Hok eq_refl E1 Hst)
    as [Hobs [Hnan [_ [_ [Hrow Hdraw]]]]].
  destruct (draw_total filter_step moments moments paint_boxes paint_estimate
              d 500 1 2 rng (or_introl eq_refl))
    as [[[d' bw] rng'] Ed]; try reflexivity.
  { intros. cbn. now rewrite length_map. }
  destruct (Hdraw 2 d' bw rng' Ed) as [Hlog _].
  destruct (Hrow 2) as [Hmode Hx].
  exists d1, rng1, d', bw, rng', (log_row moments moments
                                    (fst (update_filter filter_step d1 rng1)) 2).
  repeat split; assumption.
Defined.

(** ** Construction *)

(** C9, as the specification states it, fails: a region whose left bound is
    above its right bound and a channel whose base probabilities are 1.5
    and -2 are both constructed, with the values as given. *)
Lemma construction_accepts_invalid_configuration :
  (0.9 >= 0.1
   /\ Box_new "A"%string 0.9 0.1 0.25 "#ff7200"%string
      = Returned (mkBox "A"%string 0.9 0.1 0.25 "#ff7200"%string)
   /\ Box_new "A"%string 0.9 0.1 0.25 "#ff7200"%string <> Raised)
  /\ (~ (0 <= 1.5 < 1) /\ ~ (0 <= -2 < 1)
      /\ Gilbert_new 1.5 (-2) = Returned (mkGilbert 1.5 (-2) 0)
      /\ Gilbert_new 1.5 (-2) <> Raised).
Proof.
  repeat split; try reflexivity; try discriminate; lra.
Qed.

(** C9, amended.  No constructor tests its arguments: [Box] stores the
    bounds and the prior it is given, [Gilbert] stores the two base
    probabilities it is given and starts in state 0, and neither raises.
    [SliderDemo] stores the regions and the bursty observation probability
    of the command line as they are, builds its channel as
    [Gilbert(0.5, 0.3)] and takes the constant 200 as the number of
    particles. *)
Theorem construction_stores_arguments_unchecked
    (name color : string) (l r pr a b : R) :
  Box_new name l r pr color = Returned (mkBox name l r pr color)
  /\ Gilbert_new a b = Returned (mkGilbert a b 0)
  /\ (forall (prior_sample : nat -> Rng -> list Particle * Rng)
             (regions : list Box) (args : Args) (now : R) (rng : Rng),
        let d := fst (SliderDemo_init prior_sample regions args now rng) in
        boxes d = regions
        /\ sampling_intermittency d = arg_sampling args
        /\ gilbert d = mkGilbert 0.5 0.3 0
        /\ n_particles d = 200%nat
        /\ particles d = fst (prior_sample 200%nat rng)).
Proof.
  split; [reflexivity |]. split; [reflexivity |].
  intros prior_sample regions args now rng. unfold SliderDemo_init.
  destruct (prior_sample 200%nat rng) as [cloud rng0]. cbn. repeat split.
Qed.

(** * Further properties of the code *)

(** ** Gilbert.update: what a call draws and where it ends *)


(** [update] is the two [if] with the scaled probabilities as thresholds. *)
Lemma update_is_update_ifs (g : Gilbert) (dt : R) (rng : Rng) :
  update g dt rng =
  let r := update_ifs (time_scaled (p1 g) dt) (time_scaled (p2 g) dt) g rng in
  (state (fst r), fst r, snd r).
Proof.
  unfold update, update_ifs.
  destruct (update_if_state_0 _ g rng) as [g1 rng1].
  destruct (update_if_state_1 _ g1 rng1) as [g2 rng2]. reflexivity.
Qed.

(** X1.  What the two [if] of [update] take from the generator, whatever
    values [sp1] and [sp2] the thresholds have: one uniform sample from
    state 1; from state 0 one sample, and a second one when the first is
    below [sp1]; none from any other state.  The normal variates and the
    values still to come are left as they are. *)
Theorem update_draw_count (sp1 sp2 : R) (g : Gilbert) (rng : Rng) :
  let rng' := snd (update_ifs sp1 sp2 g rng) in
  let first_fires := Rltb (uniform_draws rng (uniform_used rng)) sp1 in
  uniform_used rng' =
    (uniform_used rng
     + (if (state g =? 0)%Z then (if first_fires then 2 else 1)
        else if (state g =? 1)%Z then 1 else 0))%nat
  /\ normal_used rng' = normal_used rng
  /\ uniform_draws rng' = uniform_draws rng
  /\ normal_draws rng' = normal_draws rng.
Proof.
  intros rng' first_fires. subst rng' first_fires.
  unfold update_ifs, update_if_state_1, update_if_state_0, random.
  destruct (state g =? 0)%Z eqn:E0; cbn.
  - destruct (Rltb _ sp1); cbn.
    + destruct (Rltb _ sp2); cbn; repeat split; lia.
    + apply Z.eqb_eq in E0. rewrite E0. cbn. repeat split; lia.
  - destruct (state g =? 1)%Z; cbn.
    + destruct (Rltb _ sp2); cbn; repeat split; lia.
    + repeat split; lia.
Qed.

(** Where a call of [update] ends.  From state 0 it ends in state 1
    exactly when the first sample is below the scaled [p1] and the second
    is not below the scaled [p2]; from state 1 it ends in state 0 exactly
    when the sample is below the scaled [p2]; any other state is kept.
    The two base probabilities are never changed. *)
Lemma update_closed_form (g : Gilbert) (dt : R) (rng : Rng) :
  let g' := snd (fst (update g dt rng)) in
  let u0 := uniform_draws rng (uniform_used rng) in
  let u1 := uniform_draws rng (S (uniform_used rng)) in
  state g' =
    (if (state g =? 0)%Z then
       if Rltb u0 (time_scaled (p1 g) dt) && negb (Rltb u1 (time_scaled (p2 g) dt))
       then 1 else 0
     else if (state g =? 1)%Z then
       if Rltb u0 (time_scaled (p2 g) dt) then 0 else 1
     else state g)%Z
  /\ p1 g' = p1 g
  /\ p2 g' = p2 g.
Proof.
  intros g' u0 u1. subst g' u0 u1.
  rewrite update_unfold. cbn.
  unfold update_if_state_1, update_if_state_0, random.
  destruct (state g =? 0)%Z eqn:E0; cbn.
  - destruct (Rltb _ (time_scaled (p1 g) dt)); cbn.
    + destruct (Rltb _ (time_scaled (p2 g) dt)); cbn; repeat split.
    + apply Z.eqb_eq in E0. rewrite E0. cbn. repeat split. exact E0.
  - destruct (state g =? 1)%Z eqn:E1; cbn.
    + destruct (Rltb _ (time_scaled (p2 g) dt)); cbn; repeat split.
      now apply Z.eqb_eq in E1.
    + repeat split.
Qed.

(** X2.  Where the two [if] of [update] end, whatever values [sp1] and
    [sp2] the thresholds have.  From state 0 they end in state 1 exactly
    when the first sample is below [sp1] and the second is not below
    [sp2]; from state 1 they end in state 0 exactly when the sample is
    below [sp2]; any other state is kept.  The two base probabilities
    are never changed. *)
Theorem update_transition_law (sp1 sp2 : R) (g : Gilbert) (rng : Rng) :
  let g' := fst (update_ifs sp1 sp2 g rng) in
  let u0 := uniform_draws rng (uniform_used rng) in
  let u1 := uniform_draws rng (S (uniform_used rng)) in
  state g' =
    (if (state g =? 0)%Z then
       if Rltb u0 sp1 && negb (Rltb u1 sp2) then 1 else 0
     else if (state g =? 1)%Z then
       if Rltb u0 sp2 then 0 else 1
     else state g)%Z
  /\ p1 g' = p1 g
  /\ p2 g' = p2 g.
Proof.
  intros g' u0 u1. subst g' u0 u1.
  unfold update_ifs, update_if_state_1, update_if_state_0, random.
  destruct (state g =? 0)%Z eqn:E0; cbn.
  - destruct (Rltb _ sp1); cbn.
    + destruct (Rltb _ sp2); cbn; repeat split.
    + apply Z.eqb_eq in E0. rewrite E0. cbn. repeat split. exact E0.
  - destruct (state g =? 1)%Z eqn:E1; cbn.
    + destruct (Rltb _ sp2); cbn; repeat split.
      now apply Z.eqb_eq in E1.
    + repeat split.
Qed.

Lemma time_scaled_monotone_p (p q dt : R) :
  0 <= p <= q -> q < 1 -> 0 <= dt -> time_scaled p dt <= time_scaled q dt.
Proof.
  intros Hpq Hq Hdt. unfold time_scaled.
  assert (H : Rpower (1 - q) dt <= Rpower (1 - p) dt)
    by (apply Rle_Rpower_l; lra).
  lra.
Qed.

(** X4.  The scaled probability does not decrease when the elapsed time
    grows, nor when the base probability grows. *)
Theorem time_scaled_increasing (p q dt1 dt2 : R) :
  0 <= p <= q -> q < 1 -> 0 <= dt1 <= dt2 ->
  time_scaled p dt1 <= time_scaled q dt2.
Proof.
  intros Hpq Hq Hdt.
  apply Rle_trans with (time_scaled p dt2).
  - apply time_scaled_monotone; lra.
  - apply time_scaled_monotone_p; lra.
Qed.

Lemma time_scaled_increasing_witness :
  time_scaled 0.3 (1 / 60) <= time_scaled 0.5 1.
Proof.
  apply time_scaled_increasing; lra.
Defined.

Lemma time_scaled_p_0 (dt : R) : time_scaled 0 dt = 0.
Proof.
  unfold time_scaled, Rpower. rewrite Rminus_0_r, ln_1, Rmult_0_r, exp_0. lra.
Qed.

Lemma run_updates_keeps (dts : list R) (g : Gilbert) (rng : Rng) :
  p1 (fst (run_updates g dts rng)) = p1 g
  /\ p2 (fst (run_updates g dts rng)) = p2 g
  /\ uniform_draws (snd (run_updates g dts rng)) = uniform_draws rng.
Proof.
  revert g rng. induction dts as [| dt dts IH]; intros g rng; cbn; [now repeat split |].
  destruct (update_closed_form g dt rng) as [_ [H1 H2]].
  pose proof (update_keeps_draws g dt rng) as Hd.
  destruct (update g dt rng) as [[s g'] rng']. cbn in H1, H2, Hd.
  destruct (IH g' rng') as [I1 [I2 I3]].
  rewrite I1, I2, I3. now repeat split.
Qed.

Lemma update_absorbing (g : Gilbert) (dt : R) (rng : Rng) :
  uniform_ok rng ->
  (p1 g = 0 /\ state g = 0%Z) \/ (p2 g = 0 /\ state g = 1%Z) ->
  state (snd (fst (update g dt rng))) = state g.
Proof.
  intros Hok Hcase.
  assert (Hno : forall n, Rltb (uniform_draws rng n) 0 = false)
    by (intros n; apply Rltb_false; destruct (Hok n); lra).
  destruct (update_closed_form g dt rng) as [Hs _]. cbn in Hs. rewrite Hs.
  destruct Hcase as [[Hp Hst] | [Hp Hst]]; rewrite Hp, Hst, time_scaled_p_0; cbn;
    now rewrite Hno.
Qed.

(** X5.  A base probability of 0 closes its transition for good: with
    draws from [0, 1), a channel in state 0 whose [p1] is 0, or in state 1
    whose [p2] is 0, is in the same state after any number of calls of
    [update], whatever the elapsed times. *)
Theorem zero_probability_absorbs (g : Gilbert) (dts : list R) (rng : Rng) :
  uniform_ok rng ->
  (p1 g = 0 /\ state g = 0%Z) \/ (p2 g = 0 /\ state g = 1%Z) ->
  state (fst (run_updates g dts rng)) = state g.
Proof.
  revert g rng. induction dts as [| dt dts IH]; intros g rng Hok Hcase; cbn;
    [reflexivity |].
  pose proof (update_absorbing g dt rng Hok Hcase) as Hst.
  destruct (update_closed_form g dt rng) as [_ [H1 H2]].
  pose proof (update_keeps_draws g dt rng) as Hd.
  destruct (update g dt rng) as [[s g'] rng']. cbn in Hst, H1, H2, Hd.
  rewrite <- Hst. apply IH.
  - intros n. rewrite Hd. apply Hok.
  - rewrite H1, H2, Hst. exact Hcase.
Qed.

Lemma zero_probability_absorbs_witness :
  state (fst (run_updates (Gilbert_init 0 0.3) [1; 0.5; 60]
                (mkRng (fun _ => 0) (fun _ => 0) 0 0)))
  = state (Gilbert_init 0 0.3).
Proof.
  apply zero_probability_absorbs.
  - intros n. cbn. lra.
  - left. split; reflexivity.
Defined.

(** ** box_probability: errors, degenerate clouds and symmetry *)

Lemma mask_select_length (mask : list bool) (ws sel : list float) :
  mask_select mask ws = Some sel -> length mask = length ws.
Proof.
  revert ws sel. induction mask as [| m mask IH]; intros [| w ws] sel H;
    try discriminate; [reflexivity |].
  cbn in H. destruct (mask_select mask ws) as [sel' |] eqn:E; [| discriminate].
  cbn. f_equal. now apply (IH ws sel').
Qed.

Lemma box_posteriors_length (xs ws : list float) (bs : list Box) (post : list float) :
  box_posteriors xs ws bs = Some post -> length post = length bs.
Proof.
  revert post. induction bs as [| b bs IH]; intros post H; cbn in H.
  - now injection H as <-.
  - destruct (box_posterior xs ws b); [| discriminate]. cbn in H.
    destruct (box_posteriors xs ws bs) as [post' |]; [| discriminate].
    cbn in H. injection H as <-. cbn. f_equal. now apply IH.
Qed.

(** X6.  For a cloud of at least one particle, [box_probability] raises
    exactly when there is a box and the cloud has not as many weights as
    particles (the boolean mask does not fit the weights); without boxes
    it returns the empty array, and whenever it returns it returns one
    entry per box. *)
Theorem box_probability_raises_iff
    (particles : list Particle) (weights : list float) (boxes : list Box) :
  particles <> [] ->
  (box_probability particles weights boxes = None
   <-> boxes <> [] /\ length particles <> length weights)
  /\ box_probability particles weights [] = Some []
  /\ (forall probs : list float,
        box_probability particles weights boxes = Some probs ->
        length probs = length boxes).
Proof.
  intros _. split; [| split].
  - split.
    + intros Hnone. split.
      * intros ->. discriminate.
      * intros Hlen.
        destruct (box_probability_total particles weights boxes Hlen) as [probs [E _]].
        congruence.
    + intros [Hne Hlen]. destruct boxes as [| b bs]; [contradiction |].
      unfold box_probability, box_scores. cbn.
      unfold box_posterior.
      destruct (mask_select (in_box b (column0 particles)) weights) as [sel |] eqn:E;
        [| reflexivity].
      exfalso. apply Hlen. apply mask_select_length in E.
      rewrite in_box_length in E. unfold column0 in E. now rewrite length_map in E.
  - reflexivity.
  - intros probs. unfold box_probability, box_scores.
    destruct (box_posteriors (column0 particles) weights boxes) as [post |] eqn:E;
      [| discriminate].
    cbn. intros H. injection H as <-.
    unfold normalise, smooth. rewrite !length_map.
    now apply box_posteriors_length in E.
Qed.

Lemma box_probability_raises_iff_witness :
  box_probability [(fin 0.5, fin 0)] [fin 0.5; fin 0.5] create_slider_boxes = None
  /\ box_probability [(fin 0.5, fin 0)] [fin 0.5; fin 0.5] [] = Some [].
Proof.
  destruct (box_probability_raises_iff [(fin 0.5, fin 0)] [fin 0.5; fin 0.5]
              create_slider_boxes ltac:(discriminate)) as [Hiff [Hnil _]].
  split; [| exact Hnil].
  apply Hiff. split; discriminate.
Defined.

Lemma box_posterior_no_mass (box : Box) (xs ws : list float) :
  length xs = length ws ->
  (forall x, In x xs -> fgt x (fin (left box)) && flt x (fin (right box)) = false) ->
  box_posterior xs ws box = Some (fin 0).
Proof.
  revert ws. induction xs as [| x xs IH]; intros [| w ws] Hlen Hout;
    try discriminate; [reflexivity |].
  rewrite box_posterior_cons, IH.
  - cbn [bind]. rewrite Hout; [reflexivity | now left].
  - now injection Hlen.
  - intros y Hy. apply Hout. now right.
Qed.

Lemma fsum_repeat (c : R) (n : nat) :
  fsum (repeat (fin c) n) = fin (INR n * c).
Proof.
  induction n as [| n IH].
  - cbn. f_equal. lra.
  - cbn [repeat fsum]. rewrite IH, S_INR. cbn. f_equal. lra.
Qed.

(** X7.  A cloud with no particle strictly inside any box gives every box
    the same probability, 1 over the number of boxes, whatever the
    priors and the weights are ([nan] weights included). *)
Theorem box_probability_without_mass
    (particles : list Particle) (weights : list float) (boxes : list Box) :
  boxes <> [] ->
  length particles = length weights ->
  (forall box x, In box boxes -> In x (column0 particles) ->
     fgt x (fin (left box)) && flt x (fin (right box)) = false) ->
  box_probability particles weights boxes
  = Some (repeat (fin (1 / INR (length boxes))) (length boxes)).
Proof.
  intros Hne Hlen Hout.
  assert (Hpost : box_posteriors (column0 particles) weights boxes
                  = Some (repeat (fin 0) (length boxes))).
  { clear Hne. induction boxes as [| b bs IH]; [reflexivity |].
    cbn. rewrite box_posterior_no_mass.
    - rewrite IH; [reflexivity |]. intros box x Hb. apply Hout. now right.
    - unfold column0. now rewrite length_map.
    - intros x. apply Hout. now left. }
  unfold box_probability, box_scores. rewrite Hpost. cbn [bind]. f_equal.
  assert (Hn : INR (length boxes) <> 0).
  { apply not_0_INR. destruct boxes; [contradiction | discriminate]. }
  unfold smooth, normalise. rewrite !map_repeat. cbn [fadd].
  rewrite fsum_repeat. f_equal. unfold fdiv.
  destruct (Req_dec_T (INR (length boxes) * (0 + 1e-6)) 0) as [Hz | _].
  - exfalso. assert (INR (length boxes) = 0) by lra. contradiction.
  - f_equal. field. assumption.
Qed.

Lemma box_probability_without_mass_witness :
  box_probability [(fin 2, fin 0); (nan, fin 0); (fin 0.1, fin 0)]
    [fin 0.5; nan; fin (-3)] create_slider_boxes
  = Some (repeat (fin (1 / INR (length create_slider_boxes)))
            (length create_slider_boxes)).
Proof.
  apply box_probability_without_mass.
  - discriminate.
  - reflexivity.
  - intros box x Hb Hx. cbn in Hb, Hx.
    destruct Hb as [<- | [<- | [<- | []]]];
      destruct Hx as [<- | [<- | [<- | []]]];
      cbn; unfold fgt; cbn; Rltb_eval; reflexivity.
Defined.

Lemma fadd_nan_r (a : float) : fadd a nan = nan.
Proof. destruct a; reflexivity. Qed.

Lemma fdiv_nan_r (a : float) : fdiv a nan = nan.
Proof. destruct a; reflexivity. Qed.

Lemma fsum_nan (l : list float) : In nan l -> fsum l = nan.
Proof.
  induction l as [| a l IH]; [contradiction |].
  intros [-> | Hin]; cbn; [reflexivity |]. rewrite IH by assumption.
  apply fadd_nan_r.
Qed.

Lemma box_posterior_total (box : Box) (xs ws : list float) :
  length xs = length ws -> exists s, box_posterior xs ws box = Some s.
Proof.
  intros Hlen. unfold box_posterior.
  destruct (mask_select_total (in_box box xs) ws) as [sel E].
  - now rewrite in_box_length.
  - rewrite E. cbn. eauto.
Qed.

(** A [nan] weight on a particle inside the box makes the sum of the box
    [nan]. *)
Lemma box_posterior_nan_weight (box : Box) (x : float) (xs1 xs2 ws1 ws2 : list float) :
  length xs1 = length ws1 -> length xs2 = length ws2 ->
  fgt x (fin (left box)) && flt x (fin (right box)) = true ->
  box_posterior (xs1 ++ x :: xs2) (ws1 ++ nan :: ws2) box = Some nan.
Proof.
  intros Hlen1 Hlen2 Hin. revert ws1 Hlen1.
  induction xs1 as [| y xs1 IH]; intros [| w ws1] Hlen1; try discriminate.
  - cbn [app]. rewrite box_posterior_cons, Hin.
    destruct (box_posterior_total box xs2 ws2 Hlen2) as [s ->]. reflexivity.
  - cbn [app]. rewrite box_posterior_cons.
    rewrite IH by (cbn in Hlen1; lia).
    cbn [bind]. rewrite fadd_nan_r.
    destruct (fgt y (fin (left box)) && flt y (fin (right box))); reflexivity.
Qed.

Lemma box_posteriors_In (xs ws : list float) (bs : list Box) (post : list float)
    (b : Box) (s : float) :
  box_posteriors xs ws bs = Some post -> In b bs ->
  box_posterior xs ws b = Some s -> In s post.
Proof.
  revert post. induction bs as [| b0 bs IH]; intros post Hpost Hin Hs; [contradiction |].
  cbn in Hpost.
  destruct (box_posterior xs ws b0) as [s0 |] eqn:E0; [| discriminate].
  destruct (box_posteriors xs ws bs) as [post' |]; [| discriminate].
  cbn in Hpost. injection Hpost as <-.
  destruct Hin as [-> | Hin].
  - left. congruence.
  - right. now apply IH.
Qed.

(** A [nan] weight on a particle that is strictly inside one of the
    boxes makes every entry of the result [nan], for all the boxes: the
    sum that normalises them is itself [nan]. *)
Lemma box_probability_nan_weight
    (ps1 ps2 : list Particle) (ws1 ws2 : list float) (x v : float)
    (boxes : list Box) (box : Box) :
  length ps1 = length ws1 ->
  length ps2 = length ws2 ->
  In box boxes ->
  fgt x (fin (left box)) && flt x (fin (right box)) = true ->
  box_probability (ps1 ++ (x, v) :: ps2) (ws1 ++ nan :: ws2) boxes
  = Some (repeat nan (length boxes)).
Proof.
  intros Hlen1 Hlen2 Hbox Hin.
  set (ps := ps1 ++ (x, v) :: ps2). set (ws := ws1 ++ nan :: ws2).
  assert (Hlen : length ps = length ws).
  { unfold ps, ws. rewrite !length_app. cbn. lia. }
  assert (Hnan : box_posterior (column0 ps) ws box = Some nan).
  { unfold ps, ws, column0. rewrite map_app. cbn [map fst].
    apply box_posterior_nan_weight; [| | exact Hin]; now rewrite length_map. }
  destruct (box_probability_total ps ws boxes Hlen) as [probs [Eprobs Hlp]].
  rewrite Eprobs. f_equal.
  unfold box_probability, box_scores in Eprobs.
  destruct (box_posteriors (column0 ps) ws boxes) as [post |] eqn:Epost;
    [| discriminate].
  cbn in Eprobs. injection Eprobs as <-.
  assert (Hsum : fsum (smooth post) = nan).
  { apply fsum_nan. unfold smooth.
    exact (in_map (fun p => fadd p (fin 1e-6)) post nan
             (box_posteriors_In _ _ _ _ _ _ Epost Hbox Hnan)). }
  unfold normalise in *. rewrite Hsum in *. rewrite <- Hlp.
  rewrite length_map. clear. induction (smooth post) as [| a l IH]; [reflexivity |].
  cbn [map length repeat]. now rewrite fdiv_nan_r, IH.
Qed.

(** X8.  A [nan] weight on a particle that is strictly inside one of the
    boxes makes every entry of the result [nan], for all the boxes: the
    sum that normalises them is itself [nan]. *)
Theorem nan_weight_in_box_spoils_all
    (ps1 ps2 : list Particle) (ws1 ws2 : list float) (x v : float)
    (boxes : list Box) (box : Box) :
  length ps1 = length ws1 ->
  length ps2 = length ws2 ->
  In box boxes ->
  fgt x (fin (left box)) && flt x (fin (right box)) = true ->
  box_probability (ps1 ++ (x, v) :: ps2) (ws1 ++ nan :: ws2) boxes
  = Some (repeat nan (length boxes)).
Proof.
  intros Hlen1 Hlen2 Hbox Hin. now apply box_probability_nan_weight with box.
Qed.

Lemma nan_weight_in_box_spoils_all_witness :
  box_probability ([(fin 0.05, fin 0)] ++ (fin 0.5, fin 0) :: [(fin 0.95, fin 0)])
    ([fin 0.5] ++ nan :: [fin 0.5]) create_slider_boxes
  = Some (repeat nan (length create_slider_boxes)).
Proof.
  apply (nan_weight_in_box_spoils_all _ _ _ _ _ _ _
           (Box_init "X"%string 0.1 0.9 0.25 "#3e3e3f"%string)).
  - reflexivity.
  - reflexivity.
  - right. left. reflexivity.
  - unfold fgt. cbn. Rltb_eval. reflexivity.
Defined.

Lemma positive_le_fsum (l : list float) :
  Forall positive l ->
  exists s : R, fsum l = fin s /\ 0 <= s
    /\ Forall (fun p => exists r : R, p = fin r /\ 0 < r <= s) l.
Proof.
  intros Hall. induction Hall as [| a l Ha Hall IH].
  - exists 0. repeat split; [lra | constructor].
  - destruct IH as [s [Es [Hs Hle]]].
    apply positive_fin in Ha. destruct Ha as [x [-> Hx]].
    exists (x + s). cbn. rewrite Es. repeat split; [lra | ].
    constructor.
    + exists x. split; [reflexivity | lra].
    + eapply Forall_impl; [| exact Hle].
      intros p [r [-> Hr]]. exists r. split; [reflexivity | lra].
Qed.

(** X9.  Under the conditions of C1 (a non-empty list of boxes with
    priors between 0 and 1e100, as many weights as particles, the weights
    finite, not negative and of a sum at most 1e100) every entry of the
    result is a probability: a finite number above 0 and at most 1. *)
Theorem box_probability_entries_in_unit_interval
    (particles : list Particle) (weights : list float) (boxes : list Box) :
  boxes <> [] ->
  length particles = length weights ->
  Forall nonneg weights ->
  total_at_most 1e100 weights ->
  Forall (fun box => 0 <= prior box <= 1e100) boxes ->
  exists probs : list float,
    box_probability particles weights boxes = Some probs
    /\ Forall (fun p => exists r : R, p = fin r /\ 0 < r <= 1) probs.
Proof.
  intros Hne Hlen Hw Htotal Hpriors.
  destruct (box_probability_bounded particles weights boxes Hne Hlen Hw Htotal Hpriors)
    as [post [probs [_ [_ [_ [Eprobs [_ [Hpos Hone]]]]]]]].
  exists probs. split; [assumption |].
  destruct (positive_le_fsum probs Hpos) as [s [Es [_ Hle]]].
  rewrite Hone in Es. injection Es as <-. exact Hle.
Qed.

Lemma box_probability_entries_in_unit_interval_witness :
  exists probs : list float,
    box_probability [(fin 0.05, fin 0); (fin 0.5, fin 0)] [fin 0.5; fin 0.5]
      create_slider_boxes = Some probs
    /\ Forall (fun p => exists r : R, p = fin r /\ 0 < r <= 1) probs.
Proof.
  apply box_probability_entries_in_unit_interval.
  - discriminate.
  - reflexivity.
  - repeat constructor; cbn [nonneg prior Box_init]; lra.
  - unfold total_at_most. cbn [fsum fadd app]. lra.
  - repeat constructor; cbn [nonneg prior Box_init]; lra.
Defined.

Lemma fadd_swap (a b c : float) : fadd a (fadd b c) = fadd b (fadd a c).
Proof. destruct a, b, c; cbn; try reflexivity. f_equal. lra. Qed.

(** The sum of a box, as a sum over the particles paired with their
    weights. *)
Lemma box_posterior_combine (box : Box) (ps : list Particle) (ws : list float) :
  length ps = length ws ->
  box_posterior (column0 ps) ws box =
  Some (fsum (map (fun pw : Particle * float => fmul (snd pw) (fin (prior box)))
           (filter (fun pw : Particle * float =>
                     fgt (fst (fst pw)) (fin (left box))
                     && flt (fst (fst pw)) (fin (right box)))
              (combine ps ws)))).
Proof.
  revert ws. induction ps as [| p ps IH]; intros [| w ws] Hlen; try discriminate;
    [reflexivity |].
  cbn [column0 map combine filter fst snd].
  fold (column0 ps). rewrite box_posterior_cons, IH by (cbn in Hlen; lia).
  cbn [bind].
  destruct (fgt (fst p) (fin (left box)) && flt (fst p) (fin (right box)));
    reflexivity.
Qed.

Lemma fsum_filter_Permutation (box : Box) (l l' : list (Particle * float)) :
  Permutation l l' ->
  fsum (map (fun pw : Particle * float => fmul (snd pw) (fin (prior box)))
          (filter (fun pw : Particle * float =>
                     fgt (fst (fst pw)) (fin (left box))
                     && flt (fst (fst pw)) (fin (right box))) l))
  = fsum (map (fun pw : Particle * float => fmul (snd pw) (fin (prior box)))
          (filter (fun pw : Particle * float =>
                     fgt (fst (fst pw)) (fin (left box))
                     && flt (fst (fst pw)) (fin (right box))) l')).
Proof.
  intros Hperm. induction Hperm as [| a l l' Hperm IH | a b l | l l' l'' _ IH1 _ IH2].
  - reflexivity.
  - cbn [filter].
    destruct (fgt (fst (fst a)) (fin (left box)) && flt (fst (fst a)) (fin (right box)));
      cbn [map fsum]; now rewrite IH.
  - cbn [filter].
    destruct (fgt (fst (fst a)) (fin (left box)) && flt (fst (fst a)) (fin (right box)));
      destruct (fgt (fst (fst b)) (fin (left box)) && flt (fst (fst b)) (fin (right box)));
      cbn [map fsum]; try reflexivity.
    apply fadd_swap.
  - now rewrite IH1.
Qed.

(** X10.  The order of the particles does not matter: two clouds that
    hold the same particles with the same weights, in any order, give the
    same result. *)
Theorem box_probability_permutation
    (particles particles' : list Particle) (weights weights' : list float)
    (boxes : list Box) :
  length particles = length weights ->
  length particles' = length weights' ->
  Permutation (combine particles weights) (combine particles' weights') ->
  box_probability particles weights boxes
  = box_probability particles' weights' boxes.
Proof.
  intros Hlen Hlen' Hperm.
  assert (Hpost : box_posteriors (column0 particles) weights boxes
                  = box_posteriors (column0 particles') weights' boxes).
  { induction boxes as [| b bs IH]; [reflexivity |].
    cbn. rewrite IH, !box_posterior_combine by assumption.
    now rewrite (fsum_filter_Permutation b _ _ Hperm). }
  unfold box_probability, box_scores. now rewrite Hpost.
Qed.

Lemma box_probability_permutation_witness :
  box_probability [(fin 0.05, fin 1); (fin 0.5, fin 2)] [fin 0.25; fin 0.75]
    create_slider_boxes
  = box_probability [(fin 0.5, fin 2); (fin 0.05, fin 1)] [fin 0.75; fin 0.25]
      create_slider_boxes.
Proof.
  apply box_probability_permutation.
  - reflexivity.
  - reflexivity.
  - cbn. apply perm_swap.
Defined.

(** ** clamp and colorscale *)

(** X11.  With bounds in order, [clamp] of a finite value is the nearest
    value between the bounds: it lies between them, and clamping it
    again changes nothing. *)
Theorem clamp_between_bounds (x lo hi : R) :
  lo <= hi ->
  clamp (fin x) (fin lo) (fin hi) = fin (Rmax lo (Rmin x hi))
  /\ lo <= Rmax lo (Rmin x hi) <= hi
  /\ clamp (clamp (fin x) (fin lo) (fin hi)) (fin lo) (fin hi)
     = clamp (fin x) (fin lo) (fin hi).
Proof.
  intros Hle.
  assert (Hclosed : forall y, clamp (fin y) (fin lo) (fin hi)
                              = fin (Rmax lo (Rmin y hi))).
  { intros y. unfold clamp, fgt, flt, Rltb.
    destruct (Rlt_dec y lo) as [Hlo | Hlo].
    - f_equal. unfold Rmin. destruct (Rle_dec y hi); [| lra].
      rewrite Rmax_left; lra.
    - destruct (Rlt_dec hi y) as [Hhi | Hhi].
      + f_equal. rewrite Rmin_right by lra. rewrite Rmax_right; lra.
      + f_equal. rewrite Rmin_left by lra. rewrite Rmax_right; lra. }
  assert (Hrange : lo <= Rmax lo (Rmin x hi) <= hi).
  { split; [apply Rmax_l |]. apply Rmax_lub; [assumption | apply Rmin_r]. }
  split; [apply Hclosed |]. split; [exact Hrange |].
  rewrite !Hclosed. f_equal.
  rewrite (Rmin_left (Rmax lo (Rmin x hi)) hi) by apply Hrange.
  apply Rmax_right. apply Rmax_l.
Qed.

Lemma clamp_between_bounds_witness :
  clamp (fin 336) (fin 0) (fin 255) = fin (Rmax 0 (Rmin 336 255))
  /\ 0 <= Rmax 0 (Rmin 336 255) <= 255
  /\ clamp (clamp (fin 336) (fin 0) (fin 255)) (fin 0) (fin 255)
     = clamp (fin 336) (fin 0) (fin 255).
Proof.
  apply clamp_between_bounds. lra.
Defined.

Lemma Zfloor_range (r : R) (a b : Z) :
  IZR a <= r <= IZR b -> (a <= Zfloor r <= b)%Z.
Proof.
  intros [Ha Hb]. split; [now apply Zfloor_lub |].
  rewrite <- (ZfloorZ b). now apply Zfloor_le.
Qed.

(** A scaled channel, for a finite factor: the integer part of the
    product kept between 0 and 255. *)
Lemma scale_channel_fin (v : Z) (k : R) :
  scale_channel v (fin k) =
  Some (if Rltb (IZR v * k) 0 then 0%Z
        else if Rltb 255 (IZR v * k) then 255%Z
        else Zfloor (IZR v * k)).
Proof.
  unfold scale_channel, clamp, fgt, flt, fmul, int_of_float.
  destruct (Rltb (IZR v * k) 0) eqn:E0.
  - rewrite Rltb_irrefl. f_equal. apply (ZfloorZ 0).
  - destruct (Rltb 255 (IZR v * k)) eqn:E1.
    + rewrite (Rltb_false 255 0) by lra. f_equal. apply (ZfloorZ 255).
    + now rewrite E0.
Qed.

(** A colour channel scaled by a finite factor is an integer from 0
    to 255; scaled by [nan] it raises, because [clamp] lets [nan]
    through and [int] refuses it. *)
Lemma scale_channel_byte (v : Z) (k : R) :
  scale_channel v nan = None
  /\ exists z : Z, scale_channel v (fin k) = Some z /\ (0 <= z <= 255)%Z.
Proof.
  split; [reflexivity |]. rewrite scale_channel_fin.
  eexists. split; [reflexivity |].
  destruct (Rltb (IZR v * k) 0) eqn:E0; [lia |].
  destruct (Rltb 255 (IZR v * k)) eqn:E1; [lia |].
  apply Zfloor_range. unfold Rltb in E0, E1.
  destruct (Rlt_dec (IZR v * k) 0); [discriminate |].
  destruct (Rlt_dec 255 (IZR v * k)); [discriminate |]. lra.
Qed.

(** X12.  A colour channel scaled by a finite factor is an integer from 0
    to 255; scaled by [nan] it raises, because [clamp] lets [nan]
    through and [int] refuses it. *)
Theorem scale_channel_range (v : Z) (k : R) :
  scale_channel v nan = None
  /\ exists z : Z, scale_channel v (fin k) = Some z /\ (0 <= z <= 255)%Z.
Proof.
  apply scale_channel_byte.
Qed.

(** X13.  What the docstring of [colorscale] promises, channel by
    channel: a factor between 0 and 1 never raises a channel, a factor of
    1 keeps it, and a factor above 1 never lowers it. *)
Theorem scale_channel_darkens_and_brightens (v : Z) (k : R) :
  (0 <= v <= 255)%Z ->
  0 <= k ->
  exists z : Z,
    scale_channel v (fin k) = Some z
    /\ (k <= 1 -> (z <= v)%Z)
    /\ (k = 1 -> z = v)
    /\ (1 <= k -> (v <= z)%Z).
Proof.
  intros [Hv0 Hv255] Hk. rewrite scale_channel_fin.
  assert (Hr0 : 0 <= IZR v) by now apply IZR_le.
  assert (Hr255 : IZR v <= 255) by now apply IZR_le.
  assert (Hprod : 0 <= IZR v * k) by nra.
  rewrite (Rltb_false _ 0) by lra.
  eexists. split; [reflexivity |].
  assert (Hdark : k <= 1 ->
            ((if Rltb 255 (IZR v * k) then 255 else Zfloor (IZR v * k)) <= v)%Z).
  { intros Hk1. rewrite Rltb_false by nra.
    rewrite <- (ZfloorZ v) at 2. apply Zfloor_le. nra. }
  assert (Hbright : 1 <= k ->
            (v <= (if Rltb 255 (IZR v * k) then 255 else Zfloor (IZR v * k)))%Z).
  { intros Hk1. destruct (Rltb 255 (IZR v * k)); [assumption |].
    apply Zfloor_lub. nra. }
  split; [exact Hdark |]. split; [| exact Hbright].
  intros ->. apply Z.le_antisymm; [apply Hdark | apply Hbright]; lra.
Qed.

Lemma scale_channel_darkens_and_brightens_witness :
  exists z : Z,
    scale_channel 223 (fin 0.5) = Some z
    /\ (0.5 <= 1 -> (z <= 223)%Z)
    /\ (0.5 = 1 -> z = 223%Z)
    /\ (1 <= 0.5 -> (223 <= z)%Z).
Proof.
  apply scale_channel_darkens_and_brightens; [lia | lra].
Defined.

Lemma hex_char_lower (d : Z) :
  (0 <= d < 16)%Z -> lower_hex_digit (hex_char d) = true.
Proof.
  intros Hd.
  assert (Hcases : (d = 0 \/ d = 1 \/ d = 2 \/ d = 3 \/ d = 4 \/ d = 5 \/ d = 6
                    \/ d = 7 \/ d = 8 \/ d = 9 \/ d = 10 \/ d = 11 \/ d = 12
                    \/ d = 13 \/ d = 14 \/ d = 15)%Z) by lia.
  repeat (destruct Hcases as [-> | Hcases]; [reflexivity |]).
  subst d. reflexivity.
Qed.

(** ["%02x"] of an integer from 0 to 255: its two hexadecimal digits. *)
Lemma format_02x_byte (z : Z) :
  (0 <= z <= 255)%Z ->
  format_02x z = String (hex_char (z / 16)) (String (hex_char (z mod 16)) EmptyString).
Proof.
  intros Hz. unfold format_02x.
  destruct (z <? 0)%Z eqn:Eneg; [apply Z.ltb_lt in Eneg; lia |].
  destruct (z <? 16)%Z eqn:E16.
  - apply Z.ltb_lt in E16.
    rewrite Z.div_small, Z.mod_small by lia.
    destruct (Z.to_nat z); cbn [hex_digits]; rewrite (proj2 (Z.ltb_lt z 16)) by lia;
      reflexivity.
  - apply Z.ltb_ge in E16.
    destruct (Z.to_nat z) as [| fuel] eqn:En; [lia |].
    cbn [hex_digits]. rewrite (proj2 (Z.ltb_ge z 16)) by lia.
    assert (Hq : (z / 16 < 16)%Z) by (apply Z.div_lt_upper_bound; lia).
    destruct fuel; cbn [hex_digits]; rewrite (proj2 (Z.ltb_lt (z / 16) 16)) by lia;
      reflexivity.
Qed.

(** X14.  A negative scale factor, or a string that has not six
    characters once the [#] around it are stripped, makes [colorscale]
    return the stripped string, without a [#] in front; it does not
    raise. *)
Theorem colorscale_returns_stripped (hexstr : string) (scalefactor : float) :
  flt scalefactor (fin 0) = true \/ String.length (strip "#" hexstr) <> 6%nat ->
  colorscale hexstr scalefactor = Some (strip "#" hexstr).
Proof.
  intros Hcase. unfold colorscale.
  destruct (flt scalefactor (fin 0)); [reflexivity |].
  destruct Hcase as [Hneg | Hlen]; [discriminate |].
  destruct (strip "#" hexstr) as [| c1 [| c2 [| c3 [| c4 [| c5 [| c6 [| c7 rest]]]]]]];
    try reflexivity.
  exfalso. apply Hlen. reflexivity.
Qed.

Lemma colorscale_returns_stripped_witness :
  colorscale "#fff" (fin 2) = Some (strip "#" "#fff")
  /\ colorscale "#ff7200" (fin (-1)) = Some (strip "#" "#ff7200").
Proof.
  split; apply colorscale_returns_stripped.
  - right. cbn. discriminate.
  - left. cbn. apply Rltb_true. lra.
Defined.

(** X15.  [colorscale] raises exactly when the scale factor is not
    negative, six characters are left after stripping, and either one of
    the three pairs of characters is not a number in base 16 or the scale
    factor is [nan]. *)
Theorem colorscale_raises_iff (hexstr : string) (scalefactor : float) :
  colorscale hexstr scalefactor = None
  <-> flt scalefactor (fin 0) = false
      /\ exists c1 c2 c3 c4 c5 c6 : ascii,
           strip "#" hexstr
           = String c1 (String c2 (String c3 (String c4 (String c5
               (String c6 EmptyString)))))
           /\ (int16_pair c1 c2 = None \/ int16_pair c3 c4 = None
               \/ int16_pair c5 c6 = None \/ scalefactor = nan).
Proof.
  unfold colorscale. split.
  - destruct (flt scalefactor (fin 0)); [discriminate |].
    destruct (strip "#" hexstr) as [| c1 [| c2 [| c3 [| c4 [| c5 [| c6 [| c7 rest]]]]]]];
      try discriminate.
    intros H. split; [reflexivity |].
    exists c1, c2, c3, c4, c5, c6. split; [reflexivity |].
    destruct (int16_pair c1 c2) as [r |]; [| now left].
    destruct (int16_pair c3 c4) as [g |]; [| now right; left].
    destruct (int16_pair c5 c6) as [b |]; [| now right; right; left].
    right. right. right.
    destruct scalefactor as [| k]; [reflexivity |].
    cbn [bind] in H. rewrite !scale_channel_fin in H. discriminate.
  - intros [Hflt [c1 [c2 [c3 [c4 [c5 [c6 [Hs Hbad]]]]]]]].
    rewrite Hflt, Hs.
    destruct (int16_pair c1 c2) as [r |]; [| reflexivity].
    destruct (int16_pair c3 c4) as [g |]; [| reflexivity].
    destruct (int16_pair c5 c6) as [b |]; [| reflexivity].
    destruct Hbad as [H | [H | [H | ->]]]; try discriminate. reflexivity.
Qed.

(** X16.  Whatever [colorscale] returns past its first test, for a string
    of six characters after stripping, is a [#] followed by six
    hexadecimal digits in lower case. *)
Theorem colorscale_output_format (hexstr out : string) (scalefactor : float) :
  colorscale hexstr scalefactor = Some out ->
  flt scalefactor (fin 0) = false ->
  String.length (strip "#" hexstr) = 6%nat ->
  exists d1 d2 d3 d4 d5 d6 : ascii,
    out = String "#" (String d1 (String d2 (String d3 (String d4 (String d5
            (String d6 EmptyString))))))
    /\ forallb lower_hex_digit [d1; d2; d3; d4; d5; d6] = true.
Proof.
  unfold colorscale. intros Hout Hflt Hlen. rewrite Hflt in Hout.
  destruct (strip "#" hexstr) as [| c1 [| c2 [| c3 [| c4 [| c5 [| c6 [| c7 rest]]]]]]];
    try discriminate.
  destruct (int16_pair c1 c2) as [r |]; [| discriminate].
  destruct (int16_pair c3 c4) as [g |]; [| discriminate].
  destruct (int16_pair c5 c6) as [b |]; [| discriminate].
  cbn [bind] in Hout.
  destruct scalefactor as [| k]; [discriminate |].
  destruct (scale_channel_byte r k) as [_ [r' [Er Hr]]].
  destruct (scale_channel_byte g k) as [_ [g' [Eg Hg]]].
  destruct (scale_channel_byte b k) as [_ [b' [Eb Hb]]].
  rewrite Er, Eg, Eb in Hout. cbn [bind] in Hout.
  rewrite !format_02x_byte in Hout by assumption.
  injection Hout as <-.
  eexists _, _, _, _, _, _. split; [reflexivity |].
  cbn [forallb].
  rewrite !hex_char_lower; [reflexivity | | | | | |];
    try (apply Z.mod_pos_bound; lia);
    (split; [apply Z.div_pos; lia | apply Z.div_lt_upper_bound; lia]).
Qed.

(** A scaled channel whose product stays between 0 and 255: its floor. *)
Lemma scale_channel_value (v z : Z) (k : R) :
  0 <= IZR v * k <= 255 ->
  IZR z <= IZR v * k < IZR z + 1 ->
  scale_channel v (fin k) = Some z.
Proof.
  intros Hrange Hfloor. rewrite scale_channel_fin.
  rewrite (Rltb_false _ 0), (Rltb_false 255) by lra.
  f_equal. now apply Zfloor_eq.
Qed.

(** A scaled channel whose product is above 255: 255. *)
Lemma scale_channel_saturates (v : Z) (k : R) :
  255 < IZR v * k -> scale_channel v (fin k) = Some 255%Z.
Proof.
  intros H. rewrite scale_channel_fin.
  now rewrite (Rltb_false _ 0), (Rltb_true 255) by lra.
Qed.

(** [colorscale] on six characters, step by step. *)
Lemma colorscale_six (hexstr : string) (scalefactor : float)
    (c1 c2 c3 c4 c5 c6 : ascii) (r g b r' g' b' : Z) :
  strip "#" hexstr
  = String c1 (String c2 (String c3 (String c4 (String c5 (String c6 EmptyString))))) ->
  flt scalefactor (fin 0) = false ->
  int16_pair c1 c2 = Some r ->
  int16_pair c3 c4 = Some g ->
  int16_pair c5 c6 = Some b ->
  scale_channel r scalefactor = Some r' ->
  scale_channel g scalefactor = Some g' ->
  scale_channel b scalefactor = Some b' ->
  colorscale hexstr scalefactor
  = Some (String "#" (format_02x r' ++ format_02x g' ++ format_02x b'))%string.
Proof.
  intros Hs Hflt Hr Hg Hb Hr' Hg' Hb'. unfold colorscale.
  rewrite Hs, Hflt, Hr, Hg, Hb. cbn [bind]. rewrite Hr', Hg', Hb'. reflexivity.
Qed.

Lemma colorscale_output_format_witness :
  exists d1 d2 d3 d4 d5 d6,
    "#7f3900"%string
    = String "#" (String d1 (String d2 (String d3 (String d4 (String d5
        (String d6 EmptyString))))))
    /\ forallb lower_hex_digit [d1; d2; d3; d4; d5; d6] = true.
Proof.
  apply (colorscale_output_format "#ff7200" "#7f3900" (fin 0.5)).
  - rewrite (colorscale_six "#ff7200" (fin 0.5) "f" "f" "7" "2" "0" "0"
               255 114 0 127 57 0); try reflexivity.
    + cbn. apply Rltb_false. lra.
    + apply scale_channel_value; lra.
    + apply scale_channel_value; lra.
    + apply scale_channel_value; lra.
  - cbn. apply Rltb_false. lra.
  - reflexivity.
Defined.

(** A lower-case hexadecimal digit is read and written back as itself,
    and is not a [#]. *)
Lemma lower_hex_digit_value (c : ascii) :
  lower_hex_digit c = true ->
  exists v : Z,
    hex_value c = Some v /\ (0 <= v < 16)%Z /\ hex_char v = c
    /\ Ascii.eqb c "#" = false.
Proof.
  destruct c as [[] [] [] [] [] [] [] []]; intros H; try discriminate H;
    eexists; (split; [reflexivity |]); (split; [cbn; lia |]);
    split; reflexivity.
Qed.

Lemma int16_pair_lower (a b : ascii) :
  lower_hex_digit a = true -> lower_hex_digit b = true ->
  exists v : Z,
    int16_pair a b = Some v /\ (0 <= v <= 255)%Z
    /\ format_02x v = String a (String b EmptyString).
Proof.
  intros Ha Hb.
  destruct (lower_hex_digit_value a Ha) as [x [Ex [Hx [Cx _]]]].
  destruct (lower_hex_digit_value b Hb) as [y [Ey [Hy [Cy _]]]].
  exists (16 * x + y)%Z. unfold int16_pair. rewrite Ex, Ey.
  split; [reflexivity |]. split; [lia |].
  rewrite format_02x_byte by lia.
  replace ((16 * x + y) / 16)%Z with x
    by (apply Z.div_unique with y; lia).
  replace ((16 * x + y) mod 16)%Z with y
    by (apply Z.mod_unique with x; lia).
  now rewrite Cx, Cy.
Qed.

(** X17.  A scale factor of 1 gives back the colour: for a [#] followed
    by six hexadecimal digits in lower case, [colorscale] reads the three
    channels and writes the same string. *)
Theorem colorscale_factor_1_is_identity (c1 c2 c3 c4 c5 c6 : ascii) :
  forallb lower_hex_digit [c1; c2; c3; c4; c5; c6] = true ->
  let colour := String "#" (String c1 (String c2 (String c3 (String c4
                  (String c5 (String c6 EmptyString)))))) in
  colorscale colour (fin 1) = Some colour.
Proof.
  intros Hall colour. cbn [forallb] in Hall. rewrite !andb_true_iff in Hall.
  destruct Hall as [H1 [H2 [H3 [H4 [H5 [H6 _]]]]]].
  destruct (int16_pair_lower c1 c2 H1 H2) as [r [Er [Hr Fr]]].
  destruct (int16_pair_lower c3 c4 H3 H4) as [g [Eg [Hg Fg]]].
  destruct (int16_pair_lower c5 c6 H5 H6) as [b [Eb [Hb Fb]]].
  destruct (lower_hex_digit_value c1 H1) as [_ [_ [_ [_ N1]]]].
  destruct (lower_hex_digit_value c6 H6) as [_ [_ [_ [_ N6]]]].
  assert (Hchan : forall v : Z, (0 <= v <= 255)%Z -> scale_channel v (fin 1) = Some v).
  { intros v [Hv0 Hv1]. apply IZR_le in Hv0, Hv1.
    apply scale_channel_value; lra. }
  rewrite (colorscale_six colour (fin 1) c1 c2 c3 c4 c5 c6 r g b r g b);
    try assumption; try (now apply Hchan).
  - rewrite Fr, Fg, Fb. reflexivity.
  - unfold colour, strip. cbn [lstrip]. rewrite (Ascii.eqb_refl "#"), N1.
    cbn [rstrip]. now rewrite N6.
  - cbn. apply Rltb_false. lra.
Qed.

Lemma colorscale_factor_1_is_identity_witness :
  colorscale "#ff7200" (fin 1) = Some "#ff7200"%string.
Proof.
  apply (colorscale_factor_1_is_identity "f" "f" "7" "2" "0" "0"). reflexivity.
Defined.

(** The three examples of the docstring of [colorscale]: the code
    returns the documented colours, with the digits in lower case. *)
Example colorscale_docstring_examples :
  colorscale "#DF3C3C" (fin 0.5) = Some "#6f1e1e"%string
  /\ colorscale "#52D24F" (fin 1.6) = Some "#83ff7e"%string
  /\ colorscale "#4F75D2" (fin 1) = Some "#4f75d2"%string.
Proof.
  split; [| split].
  - rewrite (colorscale_six "#DF3C3C" (fin 0.5) "D" "F" "3" "C" "3" "C"
               223 60 60 111 30 30); try reflexivity.
    + cbn. apply Rltb_false. lra.
    + apply scale_channel_value; lra.
    + apply scale_channel_value; lra.
    + apply scale_channel_value; lra.
  - rewrite (colorscale_six "#52D24F" (fin 1.6) "5" "2" "D" "2" "4" "F"
               82 210 79 131 255 126); try reflexivity.
    + cbn. apply Rltb_false. lra.
    + apply scale_channel_value; lra.
    + apply scale_channel_saturates; lra.
    + apply scale_channel_value; lra.
  - rewrite (colorscale_six "#4F75D2" (fin 1) "4" "F" "7" "5" "D" "2"
               79 117 210 79 117 210); try reflexivity.
    + cbn. apply Rltb_false. lra.
    + apply scale_channel_value; lra.
    + apply scale_channel_value; lra.
    + apply scale_channel_value; lra.
Qed.

(** ** The fill colours of a tick *)

Lemma colorscale_fin_defined (hexstr : string) (k : R)
    (c1 c2 c3 c4 c5 c6 : ascii) (r g b : Z) :
  strip "#" hexstr
  = String c1 (String c2 (String c3 (String c4 (String c5 (String c6 EmptyString))))) ->
  int16_pair c1 c2 = Some r ->
  int16_pair c3 c4 = Some g ->
  int16_pair c5 c6 = Some b ->
  exists out : string, colorscale hexstr (fin k) = Some out.
Proof.
  intros Hs Hr Hg Hb. unfold colorscale. rewrite Hs.
  destruct (flt (fin k) (fin 0)); [eauto |].
  rewrite Hr, Hg, Hb. cbn [bind]. rewrite !scale_channel_fin. cbn [bind]. eauto.
Qed.

Lemma colorscale_nan_raises (hexstr : string)
    (c1 c2 c3 c4 c5 c6 : ascii) :
  strip "#" hexstr
  = String c1 (String c2 (String c3 (String c4 (String c5 (String c6 EmptyString))))) ->
  colorscale hexstr nan = None.
Proof.
  intros Hs. unfold colorscale. rewrite Hs. cbn [flt].
  destruct (int16_pair c1 c2); [| reflexivity].
  destruct (int16_pair c3 c4); [| reflexivity].
  destruct (int16_pair c5 c6); reflexivity.
Qed.

(** The colours of [create_slider] are read without error, for every
    finite probability. *)
Lemma create_slider_fill_defined (d : SliderDemo) (box : Box) (k : R) :
  In box create_slider_boxes ->
  exists out : string, box_fill d box (fin k) = Some out.
Proof.
  intros Hin. unfold box_fill.
  destruct (show_particles d || show_block d); [| eauto].
  destruct Hin as [<- | [<- | [<- | []]]]; cbn [color Box_init].
  - now apply (colorscale_fin_defined _ k "f" "f" "7" "2" "0" "0" 255 114 0).
  - now apply (colorscale_fin_defined _ k "3" "e" "3" "e" "3" "f" 62 62 63).
  - now apply (colorscale_fin_defined _ k "0" "8" "6" "3" "7" "5" 8 99 117).
Qed.

(** X18.  With the boxes of [create_slider] and a cloud of as many
    weights as particles, the weights finite, not negative and of a sum
    at most 1e100, the fill colour of every box is computed without error
    from the probability of the box, whether the probabilities are shown
    or not. *)
Theorem healthy_cloud_fills_every_box
    (d : SliderDemo) (particles : list Particle) (weights : list float) :
  length particles = length weights ->
  Forall nonneg weights ->
  total_at_most 1e100 weights ->
  exists probs : list float,
    box_probability particles weights create_slider_boxes = Some probs
    /\ Forall2 (fun box box_w => exists out : string, box_fill d box box_w = Some out)
         create_slider_boxes probs.
Proof.
  intros Hlen Hw Htotal.
  assert (Hpriors : Forall (fun box => 0 <= prior box <= 1e100) create_slider_boxes)
    by (repeat constructor; cbn [nonneg prior Box_init]; lra).
  destruct (box_probability_bounded particles weights create_slider_boxes
              ltac:(discriminate) Hlen Hw Htotal Hpriors)
    as [post [probs [_ [_ [_ [Eprobs [Hlp [Hpos _]]]]]]]].
  exists probs. split; [assumption |].
  destruct probs as [| w1 [| w2 [| w3 [| w4 rest]]]]; try discriminate Hlp.
  inversion Hpos as [| ? ? P1 Hpos1]; subst.
  inversion Hpos1 as [| ? ? P2 Hpos2]; subst.
  inversion Hpos2 as [| ? ? P3 _]; subst.
  apply positive_fin in P1, P2, P3.
  destruct P1 as [k1 [-> _]]. destruct P2 as [k2 [-> _]]. destruct P3 as [k3 [-> _]].
  repeat constructor; apply create_slider_fill_defined; cbn; auto.
Qed.

Lemma healthy_cloud_fills_every_box_witness :
  exists probs : list float,
    box_probability [(fin 0.05, fin 0); (fin 0.5, fin 0)] [fin 0.5; fin 0.5]
      create_slider_boxes = Some probs
    /\ Forall2
         (fun box box_w =>
            exists out : string,
              box_fill (mkSliderDemo create_slider_boxes 1000 150 []
                          (Gilbert_init 0.5 0.3) 200 [] [] true false 0.1
                          None 0 0 0 0 0.03 0 0 0 false) box box_w = Some out)
         create_slider_boxes probs.
Proof.
  apply healthy_cloud_fills_every_box.
  - reflexivity.
  - repeat constructor; cbn [nonneg prior Box_init]; lra.
  - unfold total_at_most. cbn [fsum fadd app]. lra.
Defined.

(** X19.  With the boxes of [create_slider] and the probabilities shown,
    a [nan] weight on a particle strictly inside a box stops the
    painting: the probability of every box is [nan] and [colorscale]
    raises on each of them. *)
Theorem nan_weight_stops_the_painting
    (d : SliderDemo) (ps1 ps2 : list Particle) (ws1 ws2 : list float)
    (x v : float) (box : Box) :
  show_particles d || show_block d = true ->
  length ps1 = length ws1 ->
  length ps2 = length ws2 ->
  In box create_slider_boxes ->
  fgt x (fin (left box)) && flt x (fin (right box)) = true ->
  exists probs : list float,
    box_probability (ps1 ++ (x, v) :: ps2) (ws1 ++ nan :: ws2) create_slider_boxes
    = Some probs
    /\ Forall2 (fun b box_w => box_fill d b box_w = None) create_slider_boxes probs.
Proof.
  intros Hshow Hlen1 Hlen2 Hbox Hin.
  rewrite (box_probability_nan_weight ps1 ps2 ws1 ws2 x v create_slider_boxes box)
    by assumption.
  eexists. split; [reflexivity |].
  cbn [create_slider_boxes length repeat].
  repeat constructor; unfold box_fill; rewrite Hshow; cbn [color Box_init];
    eapply colorscale_nan_raises; reflexivity.
Qed.

Lemma nan_weight_stops_the_painting_witness :
  exists probs : list float,
    box_probability ([(fin 0.05, fin 0)] ++ (fin 0.5, fin 0) :: [(fin 0.95, fin 0)])
      ([fin 0.5] ++ nan :: [fin 0.5]) create_slider_boxes
    = Some probs
    /\ Forall2
         (fun b box_w =>
            box_fill (mkSliderDemo create_slider_boxes 1000 150 []
                        (Gilbert_init 0.5 0.3) 200 [] [] true false 0.1
                        None 0 0 0 0 0.03 0 0 0 false) b box_w = None)
         create_slider_boxes probs.
Proof.
  apply (nan_weight_stops_the_painting _ _ _ _ _ _ _
           (Box_init "X"%string 0.1 0.9 0.25 "#3e3e3f"%string)).
  - reflexivity.
  - reflexivity.
  - reflexivity.
  - right. left. reflexivity.
  - unfold fgt. cbn. Rltb_eval. reflexivity.
Defined.

(** ** SliderDemo.update_state *)

(** X20.  For a demo as the constructor makes it (a screen size that is
    not 0, a noise level that is not negative, a channel whose base
    probabilities lie in [0, 1)) and a clock that has not gone back,
    [update_state] raises exactly on a tick that is not the first and
    carries the same time as the tick before: the division of the
    displacement by the elapsed time is a division by zero. *)
Theorem update_state_raises_iff (d : SliderDemo) (screen_x now : R) (rng : Rng) :
  screen_size d <> 0 ->
  0 <= position_noise d ->
  0 <= p1 (gilbert d) < 1 ->
  0 <= p2 (gilbert d) < 1 ->
  last_t d <= now ->
  update_state d screen_x now rng = None
  <-> exists lx : R, last_x d = Some lx /\ now = last_t d.
Proof.
  intros _ _ _ _ _. split.
  - intros Hnone. destruct (last_x d) as [lx |] eqn:El.
    + exists lx. split; [reflexivity |].
      destruct (Req_dec_T now (last_t d)) as [Heq | Hne]; [assumption |].
      destruct (update_state_total d screen_x now rng (or_intror Hne)) as [d1 [rng1 E]].
      congruence.
    + destruct (update_state_total d screen_x now rng (or_introl El)) as [d1 [rng1 E]].
      congruence.
  - intros [lx [El Heq]]. unfold update_state, elapsed. rewrite El.
    destruct (Req_dec_T (now - last_t d) 0) as [_ | Hne]; [reflexivity |].
    exfalso. apply Hne. lra.
Qed.

Lemma update_state_raises_iff_witness :
  let rng := mkRng (fun _ => 0.5) (fun _ => 0) 0 0 in
  let d := mkSliderDemo create_slider_boxes 1000 150 [] (Gilbert_init 0.5 0.3)
             200 [] [] false false 0.1 (Some 0.25) 1 0 0 0.25 0.03 1 1 0 false in
  update_state d 500 1 rng = None /\ update_state d 500 3 rng <> None.
Proof.
  intros rng d.
  assert (Hsize : screen_size d <> 0) by (cbn; lra).
  assert (Hnoise : 0 <= position_noise d) by (cbn; lra).
  assert (Hp1 : 0 <= p1 (gilbert d) < 1) by (cbn; lra).
  assert (Hp2 : 0 <= p2 (gilbert d) < 1) by (cbn; lra).
  split.
  - apply (update_state_raises_iff d 500 1 rng Hsize Hnoise Hp1 Hp2).
    + cbn. lra.
    + exists 0.25. split; reflexivity.
  - intros Hnone.
    apply (update_state_raises_iff d 500 3 rng Hsize Hnoise Hp1 Hp2) in Hnone.
    + destruct Hnone as [lx [_ Heq]]. cbn in Heq. lra.
    + cbn. lra.
Defined.

(** What a tick records of the motion.  The position is the pixel
    over the screen size and is remembered, with the time, for the next
    tick.  The first tick takes 1/60 as the elapsed time and leaves the
    speed as it was; every later tick takes the time since the tick
    before, which is not 0, and a speed that times the elapsed time is
    the displacement. *)
Lemma update_state_kinematics
    (d d1 : SliderDemo) (screen_x now : R) (rng rng1 : Rng) :
  update_state d screen_x now rng = Some (d1, rng1) ->
  x d1 = screen_x / screen_size d
  /\ last_x d1 = Some (x d1)
  /\ last_t d1 = now
  /\ t d1 = now
  /\ match last_x d with
     | None => dt d1 = 1 / 60 /\ dx d1 = dx d
     | Some lx =>
         dt d1 = now - last_t d /\ dt d1 <> 0 /\ dx d1 * dt d1 = x d1 - lx
     end.
Proof.
  unfold update_state, elapsed.
  destruct (last_x d) as [lx |].
  - destruct (Req_dec_T (now - last_t d) 0) as [Hz | Hnz]; [discriminate |].
    cbn [bind]. destruct (update (gilbert d) (now - last_t d) rng) as [[s g'] rngu].
    unfold normal, uniform, random. cbn.
    intros H. inversion H; subst d1 rng1; clear H. cbn.
    repeat split; try assumption.
    unfold Rdiv at 1. rewrite Rmult_assoc, Rinv_l by assumption. ring.
  - cbn [bind]. destruct (update (gilbert d) (1 / 60.0) rng) as [[s g'] rngu].
    unfold normal, uniform, random. cbn.
    intros H. inversion H; subst d1 rng1; clear H. cbn.
    repeat split. lra.
Qed.

(** X21.  What a tick records of the motion.  The position is the pixel
    over the screen size and is remembered, with the time, for the next
    tick.  The first tick takes 1/60 as the elapsed time and leaves the
    speed as it was; every later tick takes the time since the tick
    before, which is not 0, and a speed that times the elapsed time is
    the displacement. *)
Theorem update_state_motion
    (d d1 : SliderDemo) (screen_x now : R) (rng rng1 : Rng) :
  update_state d screen_x now rng = Some (d1, rng1) ->
  x d1 = screen_x / screen_size d
  /\ last_x d1 = Some (x d1)
  /\ last_t d1 = now
  /\ t d1 = now
  /\ match last_x d with
     | None => dt d1 = 1 / 60 /\ dx d1 = dx d
     | Some lx =>
         dt d1 = now - last_t d /\ dt d1 <> 0 /\ dx d1 * dt d1 = x d1 - lx
     end.
Proof.
  apply update_state_kinematics.
Qed.

Lemma update_state_motion_witness :
  let rng := mkRng (fun _ => 0.5) (fun _ => 0) 0 0 in
  let d := mkSliderDemo create_slider_boxes 1000 150 [] (Gilbert_init 0.5 0.3)
             200 [] [] false false 0.1 (Some 0.25) 1 0 0 0.25 0.03 1 1 0 false in
  exists (d1 : SliderDemo) (rng1 : Rng),
    update_state d 500 3 rng = Some (d1, rng1)
    /\ x d1 = 500 / 1000
    /\ last_x d1 = Some (x d1)
    /\ dt d1 = 3 - 1
    /\ dx d1 * dt d1 = x d1 - 0.25.
Proof.
  intros rng d.
  destruct (update_state_total d 500 3 rng) as [d1 [rng1 E]].
  { right. cbn. lra. }
  exists d1, rng1. split; [exact E |].
  destruct (update_state_motion d d1 500 3 rng rng1 E) as [Hx [Hl [_ [_ Hm]]]].
  cbn in Hm. destruct Hm as [Hdt [_ Hdx]]. repeat split; assumption.
Defined.



(** X23.  The counterpart of C7: with draws from [0, 1) and a bursty
    observation probability of 1 or more, a tick that leaves the channel
    out of state 0 always observes, and both the observation handed to
    the filter and the logged [obs_x] are the noisy position. *)
Theorem bursty_tick_with_sampling_1_observes
    (d d1 : SliderDemo) (screen_x now : R) (rng rng1 : Rng) :
  uniform_ok rng ->
  1 <= sampling_intermittency d ->
  update_state d screen_x now rng = Some (d1, rng1) ->
  state (gilbert d1) <> 0%Z ->
  observed d1 = true
  /\ fst (observation d1) = fin (observed_x d1)
  /\ logged_obs_x d1 = fin (observed_x d1).
Proof.
  intros Hok Hs. unfold update_state.
  destruct (elapsed d screen_x now) as [[[x' dx'] dt'] |]; [| discriminate].
  cbn [bind]. pose proof (update_keeps_draws (gilbert d) dt' rng) as Hdraws.
  destruct (update (gilbert d) dt' rng) as [[s g'] rngu]. cbn in Hdraws.
  unfold normal, uniform, random. cbn.
  intros H. inversion H; subst d1 rng1; clear H. cbn. intros Hst.
  assert (Hobs : (if (state g' =? 0)%Z
                  then Rltb (0 + (1 - 0) * uniform_draws rngu (uniform_used rngu)) 0.9
                  else Rltb (0 + (1 - 0) * uniform_draws rngu (uniform_used rngu))
                         (sampling_intermittency d)) = true).
  { destruct (state g' =? 0)%Z eqn:E; [apply Z.eqb_eq in E; contradiction |].
    apply Rltb_true. specialize (Hok (uniform_used rngu)).
    rewrite <- Hdraws in Hok. lra. }
  unfold observation, logged_obs_x. cbn. rewrite Hobs. repeat split.
Qed.

Lemma bursty_tick_with_sampling_1_observes_witness :
  let rng := mkRng (fun _ => 0.5) (fun _ => 0) 0 0 in
  let d := mkSliderDemo create_slider_boxes 1000 150 [] (mkGilbert 0.5 0 1)
             200 [] [] false false 1 None 0 0 0 0 0.03 0 0 0 false in
  exists (d1 : SliderDemo) (rng1 : Rng),
    update_state d 500 3 rng = Some (d1, rng1)
    /\ state (gilbert d1) <> 0%Z
    /\ observed d1 = true
    /\ logged_obs_x d1 = fin (observed_x d1).
Proof.
  intros rng d.
  assert (Hok : uniform_ok rng) by (intros n; cbn; lra).
  destruct (update_state_total d 500 3 rng) as [d1 [rng1 E]].
  { left. reflexivity. }
  assert (Hst : state (gilbert d1) <> 0%Z).
  { destruct (update_state_spec _ _ _ _ _ _ E) as [x' [dx' [dt' [_ [Hg _]]]]].
    rewrite Hg, (update_absorbing (gilbert d) dt' rng Hok).
    - discriminate.
    - right. split; reflexivity. }
  exists d1, rng1. split; [exact E |]. split; [exact Hst |].
  destruct (bursty_tick_with_sampling_1_observes d d1 500 3 rng rng1 Hok) as [Ho [_ Hl]];
    try assumption.
  - cbn. lra.
  - split; assumption.
Defined.

(** ** SliderDemo.draw and the log *)

Section Ticks.

Variable prior_sample : nat -> Rng -> list Particle * Rng.
Variable filter_step :
  list Particle -> float * float -> R -> R -> Rng ->
  list Particle * list float * Rng.
Variable expected_position : list Particle -> list float -> float * float.
Variable variance_position : list Particle -> list float -> float * float.
Variable paint_boxes : SliderDemo -> list float -> option unit.
Variable paint_estimate : SliderDemo -> option unit.

Local Abbreviation filtered := (update_filter filter_step).
Local Abbreviation row_of := (log_row expected_position variance_position).
Local Abbreviation tick :=
  (draw filter_step expected_position variance_position paint_boxes paint_estimate).
Local Abbreviation ticks_of :=
  (run_draws filter_step expected_position variance_position
     paint_boxes paint_estimate).

(** The probabilities that a completed tick returns are those of the
    cloud that the filter has left and of the boxes of the demo. *)
Lemma draw_box_weights (d d' : SliderDemo) (screen_x now now_log : R)
    (rng rng' : Rng) (box_weights : list float) :
  tick d screen_x now now_log rng = Some (d', box_weights, rng') ->
  box_probability (particles d') (weights d') (boxes d) = Some box_weights
  /\ boxes d' = boxes d.
Proof.
  unfold draw.
  destruct (update_state d screen_x now rng) as [[d1 rng1] |] eqn:E1; [| discriminate].
  destruct (update_state_spec _ _ _ _ _ _ E1)
    as [x' [dx' [dt' [_ [_ [_ [_ [_ [Hb _]]]]]]]]].
  cbn [bind]. unfold update_filter.
  destruct (filter_step (particles d1) (observation d1) (dt d1) 0.00005 rng1)
    as [[ps' ws'] rngf]. cbn [particles weights boxes].
  destruct (box_probability ps' ws' (boxes d1)) as [bw |] eqn:Eb; [| discriminate].
  cbn [bind]. destruct (paint_boxes _ bw); [| discriminate].
  cbn [bind]. destruct (paint_estimate _); [| discriminate].
  cbn [bind]. intros H. injection H as <- <- _. cbn. rewrite <- Hb. now split.
Qed.

(** X24.  The row that a completed tick adds to the log reports the
    observation that the filter received: the same position, [nan] when
    nothing was observed, and the same speed; its mode is the state of
    the channel and its [true_x] the position of the tick. *)
Theorem logged_row_matches_observation
    (d d' : SliderDemo) (screen_x now now_log : R) (rng rng' : Rng)
    (box_weights : list float) :
  tick d screen_x now now_log rng = Some (d', box_weights, rng') ->
  exists (d1 : SliderDemo) (rng1 : Rng) (row : LogRow),
    update_state d screen_x now rng = Some (d1, rng1)
    /\ filter_step (particles d1) (observation d1) (dt d1) 0.00005 rng1
       = (particles d', weights d', rng')
    /\ logger d' = logger d ++ [row]
    /\ (obs_x row, fin (obs_speed row)) = observation d1
    /\ mode row = state (gilbert d1)
    /\ true_x row = screen_x / screen_size d.
Proof.
  intros Ed.
  destruct (draw_spec _ _ _ _ _ _ _ _ _ _ _ _ _ Ed) as [d1 [rng1 [E1 [-> ->]]]].
  destruct (update_state_spec _ _ _ _ _ _ E1)
    as [x' [dx' [dt' [_ [_ [_ [_ [Hlog _]]]]]]]].
  destruct (update_state_kinematics _ _ _ _ _ _ E1) as [Hx _].
  destruct (update_filter_spec filter_step d1 rng1) as [Hf [Hg [Ho [Hox [Hl _]]]]].
  exists d1, rng1, (row_of (fst (filtered d1 rng1)) now_log).
  split; [exact E1 |]. split; [exact Hf |]. cbn.
  rewrite Hl, Hlog, Hg. split; [reflexivity |].
  split; [| split; [reflexivity |]].
  - unfold logged_obs_x, observation. rewrite Ho, Hox.
    unfold update_filter.
    destruct (filter_step (particles d1) (observation d1) (dt d1) 0.00005 rng1)
      as [[ps' ws'] rngf]. cbn. now destruct (observed d1).
  - unfold update_filter.
    destruct (filter_step (particles d1) (observation d1) (dt d1) 0.00005 rng1)
      as [[ps' ws'] rngf]. cbn. exact Hx.
Qed.

Lemma draw_appends_row (d d' : SliderDemo) (screen_x now now_log : R)
    (rng rng' : Rng) (box_weights : list float) :
  tick d screen_x now now_log rng = Some (d', box_weights, rng') ->
  exists (d1 : SliderDemo) (rng1 : Rng) (row : LogRow),
    update_state d screen_x now rng = Some (d1, rng1)
    /\ logger d' = logger d ++ [row]
    /\ mode row = state (gilbert d1)
    /\ gilbert d' = gilbert d1.
Proof.
  intros Ed.
  destruct (draw_spec _ _ _ _ _ _ _ _ _ _ _ _ _ Ed) as [d1 [rng1 [E1 [-> ->]]]].
  destruct (update_state_spec _ _ _ _ _ _ E1)
    as [x' [dx' [dt' [_ [_ [_ [_ [Hlog _]]]]]]]].
  destruct (update_filter_spec filter_step d1 rng1) as [_ [Hg [_ [_ [Hl _]]]]].
  exists d1, rng1, (row_of (fst (filtered d1 rng1)) now_log).
  split; [exact E1 |]. cbn. rewrite Hl, Hlog, Hg. repeat split.
Qed.

(** The log only grows, by one row per tick: a run of ticks that
    completes leaves the rows that were there, in place, followed by as
    many new rows as there were ticks. *)
Lemma run_draws_rows
    (ticks : list (R * R * R)) (d d' : SliderDemo) (rng rng' : Rng) :
  ticks_of d ticks rng = Some (d', rng') ->
  exists rows : list LogRow,
    logger d' = logger d ++ rows /\ length rows = length ticks.
Proof.
  revert d rng. induction ticks as [| [[screen_x now] now_log] ticks IH];
    intros d rng Hrun; cbn in Hrun.
  - injection Hrun as <- _. exists []. now rewrite app_nil_r.
  - destruct (tick d screen_x now now_log rng) as [[[dn bw] rngn] |] eqn:Ed;
      [| discriminate].
    cbn [bind] in Hrun.
    destruct (draw_appends_row _ _ _ _ _ _ _ _ Ed) as [d1 [rng1 [row [_ [Hlog _]]]]].
    destruct (IH _ _ Hrun) as [rows [Hrows Hlen]].
    exists (row :: rows). rewrite Hrows, Hlog, <- app_assoc. cbn.
    now rewrite Hlen.
Qed.

(** X25.  The log only grows, by one row per tick: a run of ticks that
    completes leaves the rows that were there, in place, followed by as
    many new rows as there were ticks. *)
Theorem run_draws_appends_one_row_per_tick
    (ticks : list (R * R * R)) (d d' : SliderDemo) (rng rng' : Rng) :
  ticks_of d ticks rng = Some (d', rng') ->
  exists rows : list LogRow,
    logger d' = logger d ++ rows /\ length rows = length ticks.
Proof.
  apply run_draws_rows.
Qed.

Lemma run_draws_modes (ticks : list (R * R * R)) (d d' : SliderDemo) (rng rng' : Rng) :
  ticks_of d ticks rng = Some (d', rng') ->
  state (gilbert d) = 0%Z \/ state (gilbert d) = 1%Z ->
  Forall (fun row => mode row = 0%Z \/ mode row = 1%Z) (logger d) ->
  Forall (fun row => mode row = 0%Z \/ mode row = 1%Z) (logger d')
  /\ (state (gilbert d') = 0%Z \/ state (gilbert d') = 1%Z).
Proof.
  revert d rng. induction ticks as [| [[screen_x now] now_log] ticks IH];
    intros d rng Hrun Hst Hrows; cbn in Hrun.
  - injection Hrun as <- _. now split.
  - destruct (tick d screen_x now now_log rng) as [[[dn bw] rngn] |] eqn:Ed;
      [| discriminate].
    cbn [bind] in Hrun.
    destruct (draw_appends_row _ _ _ _ _ _ _ _ Ed)
      as [d1 [rng1 [row [E1 [Hlog [Hmode Hg]]]]]].
    destruct (update_state_spec _ _ _ _ _ _ E1)
      as [x' [dx' [dt' [_ [Hg1 _]]]]].
    assert (Hst1 : state (gilbert d1) = 0%Z \/ state (gilbert d1) = 1%Z).
    { rewrite Hg1. now apply update_state_01. }
    apply (IH _ _ Hrun).
    + now rewrite Hg.
    + rewrite Hlog. apply Forall_app. split; [assumption |].
      constructor; [| constructor]. now rewrite Hmode.
Qed.

(** X26.  From a fresh [SliderDemo], a run of ticks that completes has
    logged one row per tick and the mode of every row is 0 or 1. *)
Theorem fresh_demo_logs_modes_0_and_1
    (regions : list Box) (args : Args) (start : R) (rng0 : Rng)
    (ticks : list (R * R * R)) (d' : SliderDemo) (rng' : Rng) :
  let fresh := SliderDemo_init prior_sample regions args start rng0 in
  ticks_of (fst fresh) ticks (snd fresh) = Some (d', rng') ->
  length (logger d') = length ticks
  /\ Forall (fun row => mode row = 0%Z \/ mode row = 1%Z) (logger d').
Proof.
  intros fresh Hrun.
  assert (Hinit : logger (fst fresh) = [] /\ state (gilbert (fst fresh)) = 0%Z).
  { unfold fresh, SliderDemo_init. destruct (prior_sample 200%nat rng0). now split. }
  destruct Hinit as [Hlog Hst]. split.
  - destruct (run_draws_rows ticks _ _ _ _ Hrun)
      as [rows [Hrows Hlen]].
    now rewrite Hrows, Hlog.
  - apply (run_draws_modes ticks _ _ _ _ Hrun); [now left |].
    rewrite Hlog. constructor.
Qed.

(** X27.  A tick that completes with a filter that returns as many
    weights as particles, the weights finite, not negative and of a sum
    at most 1e100, for a demo whose boxes are not empty and have priors
    between 0 and 1e100, computes probabilities that sum to 1, one per
    box and each above 0. *)
Theorem tick_probabilities_sum_to_1
    (d d' : SliderDemo) (screen_x now now_log : R) (rng rng' : Rng)
    (box_weights : list float) :
  (forall ps o dt rate r,
     length (fst (fst (filter_step ps o dt rate r)))
     = length (snd (fst (filter_step ps o dt rate r)))
     /\ Forall nonneg (snd (fst (filter_step ps o dt rate r)))
     /\ total_at_most 1e100 (snd (fst (filter_step ps o dt rate r)))) ->
  boxes d <> [] ->
  Forall (fun box => 0 <= prior box <= 1e100) (boxes d) ->
  tick d screen_x now now_log rng = Some (d', box_weights, rng') ->
  length box_weights = length (boxes d)
  /\ Forall positive box_weights
  /\ fsum box_weights = fin 1.
Proof.
  intros Hfilter Hne Hpriors Ed.
  destruct (draw_box_weights _ _ _ _ _ _ _ _ Ed) as [Ebw _].
  destruct (draw_spec _ _ _ _ _ _ _ _ _ _ _ _ _ Ed) as [d1 [rng1 [_ [Hd' _]]]].
  destruct (update_filter_spec filter_step d1 rng1) as [Hf _].
  destruct (Hfilter (particles d1) (observation d1) (dt d1) 0.00005 rng1)
    as [Hlen [Hw Htotal]].
  rewrite Hf in Hlen, Hw, Htotal. cbn [fst snd] in Hlen, Hw, Htotal.
  assert (Hp : particles d' = particles (fst (filtered d1 rng1))
               /\ weights d' = weights (fst (filtered d1 rng1)))
    by (rewrite Hd'; now split).
  destruct Hp as [Hp Hws]. rewrite <- Hp, <- Hws in Hlen.
  rewrite <- Hws in Hw, Htotal.
  destruct (box_probability_bounded _ _ (boxes d) Hne Hlen Hw Htotal Hpriors)
    as [post [probs [_ [_ [_ [Eprobs [Hlp [Hpos Hone]]]]]]]].
  rewrite Ebw in Eprobs. injection Eprobs as <-. now repeat split.
Qed.

End Ticks.

Lemma logged_row_matches_observation_witness :
  let filter_step :=
    fun (ps : list Particle) (_ : float * float) (_ _ : R) (rng : Rng) =>
      (ps, map (fun _ => fin 0.5) ps, rng) in
  let moments := fun (_ : list Particle) (_ : list float) => (fin 0, fin 0) in
  let paint_boxes := fun (_ : SliderDemo) (_ : list float) => Some tt in
  let paint_estimate := fun (_ : SliderDemo) => Some tt in
  let rng := mkRng (fun _ => 0.5) (fun _ => 0) 0 0 in
  let d := mkSliderDemo create_slider_boxes 1000 150 [] (Gilbert_init 0.5 0.3)
             200 [(fin 0.5, fin 0); (fin 0.7, fin 0)] [] false false 0.1
             None 0 0 0 0 0.03 0 0 0 false in
  exists (d' : SliderDemo) (box_weights : list float) (rng' : Rng)
         (d1 : SliderDemo) (rng1 : Rng) (row : LogRow),
    draw filter_step moments moments paint_boxes paint_estimate d 500 1 2 rng
    = Some (d', box_weights, rng')
    /\ update_state d 500 1 rng = Some (d1, rng1)
    /\ logger d' = logger d ++ [row]
    /\ (obs_x row, fin (obs_speed row)) = observation d1
    /\ mode row = state (gilbert d1)
    /\ true_x row = 500 / 1000.
Proof.
  intros filter_step moments paint_boxes paint_estimate rng d.
  destruct (draw_total filter_step moments moments paint_boxes paint_estimate
              d 500 1 2 rng (or_introl eq_refl))
    as [[[d' bw] rng'] Ed]; try reflexivity.
  { intros. cbn. now rewrite length_map. }
  destruct (logged_row_matches_observation filter_step moments moments
              paint_boxes paint_estimate d d' 500 1 2 rng rng' bw Ed)
    as [d1 [rng1 [row [E1 [_ [Hlog [Hobs [Hmode Hx]]]]]]]].
  exists d', bw, rng', d1, rng1, row. repeat split; assumption.
Defined.

Lemma run_draws_appends_one_row_per_tick_witness :
  let filter_step :=
    fun (ps : list Particle) (_ : float * float) (_ _ : R) (rng : Rng) =>
      (ps, map (fun _ => fin 0.5) ps, rng) in
  let moments := fun (_ : list Particle) (_ : list float) => (fin 0, fin 0) in
  let paint_boxes := fun (_ : SliderDemo) (_ : list float) => Some tt in
  let paint_estimate := fun (_ : SliderDemo) => Some tt in
  let rng := mkRng (fun _ => 0.5) (fun _ => 0) 0 0 in
  let d := mkSliderDemo create_slider_boxes 1000 150 [] (Gilbert_init 0.5 0.3)
             200 [(fin 0.5, fin 0); (fin 0.7, fin 0)] [] false false 0.1
             None 0 0 0 0 0.03 0 0 0 false in
  exists (d' : SliderDemo) (rng' : Rng) (rows : list LogRow),
    run_draws filter_step moments moments paint_boxes paint_estimate
      d [(500, 1, 2)] rng = Some (d', rng')
    /\ logger d' = logger d ++ rows
    /\ length rows = 1%nat.
Proof.
  intros filter_step moments paint_boxes paint_estimate rng d.
  destruct (draw_total filter_step moments moments paint_boxes paint_estimate
              d 500 1 2 rng (or_introl eq_refl))
    as [[[d' bw] rng'] Ed]; try reflexivity.
  { intros. cbn. now rewrite length_map. }
  assert (Hrun : run_draws filter_step moments moments paint_boxes paint_estimate
                   d [(500, 1, 2)] rng = Some (d', rng')).
  { cbn [run_draws]. rewrite Ed. reflexivity. }
  destruct (run_draws_appends_one_row_per_tick filter_step moments moments
              paint_boxes paint_estimate [(500, 1, 2)] d d' rng rng' Hrun)
    as [rows [Hrows Hlen]].
  exists d', rng', rows. repeat split; assumption.
Defined.

Lemma fresh_demo_logs_modes_0_and_1_witness :
  let prior_sample :=
    fun (n : nat) (rng : Rng) => ([(fin 0.5, fin 0); (fin 0.7, fin 0)], rng) in
  let filter_step :=
    fun (ps : list Particle) (_ : float * float) (_ _ : R) (rng : Rng) =>
      (ps, map (fun _ => fin 0.5) ps, rng) in
  let moments := fun (_ : list Particle) (_ : list float) => (fin 0, fin 0) in
  let paint_boxes := fun (_ : SliderDemo) (_ : list float) => Some tt in
  let paint_estimate := fun (_ : SliderDemo) => Some tt in
  let rng := mkRng (fun _ => 0.5) (fun _ => 0) 0 0 in
  let fresh := SliderDemo_init prior_sample create_slider_boxes
                 (mkArgs false false 0.1) 0 rng in
  exists (d' : SliderDemo) (rng' : Rng),
    run_draws filter_step moments moments paint_boxes paint_estimate
      (fst fresh) [(500, 1, 2)] (snd fresh) = Some (d', rng')
    /\ length (logger d') = 1%nat
    /\ Forall (fun row => mode row = 0%Z \/ mode row = 1%Z) (logger d').
Proof.
  intros prior_sample filter_step moments paint_boxes paint_estimate rng fresh.
  destruct (draw_total filter_step moments moments paint_boxes paint_estimate
              (fst fresh) 500 1 2 (snd fresh) (or_introl eq_refl))
    as [[[d' bw] rng'] Ed]; try reflexivity.
  { intros. cbn. now rewrite length_map. }
  assert (Hrun : run_draws filter_step moments moments paint_boxes paint_estimate
                   (fst fresh) [(500, 1, 2)] (snd fresh) = Some (d', rng')).
  { cbn [run_draws]. rewrite Ed. reflexivity. }
  exists d', rng'. split; [exact Hrun |].
  exact (fresh_demo_logs_modes_0_and_1 prior_sample filter_step moments moments
           paint_boxes paint_estimate create_slider_boxes (mkArgs false false 0.1)
           0 rng [(500, 1, 2)] d' rng' Hrun).
Defined.

Lemma fsum_map_const (A : Type) (c : R) (l : list A) :
  fsum (map (fun _ => fin c) l) = fin (INR (length l) * c).
Proof.
  induction l as [| a l IH].
  - cbn. f_equal. lra.
  - cbn [map fsum length]. rewrite IH, S_INR. cbn. f_equal. lra.
Qed.

Lemma tick_probabilities_sum_to_1_witness :
  let filter_step :=
    fun (ps : list Particle) (_ : float * float) (_ _ : R) (rng : Rng) =>
      (ps, map (fun _ => fin (/ INR (length ps))) ps, rng) in
  let moments := fun (_ : list Particle) (_ : list float) => (fin 0, fin 0) in
  let paint_boxes := fun (_ : SliderDemo) (_ : list float) => Some tt in
  let paint_estimate := fun (_ : SliderDemo) => Some tt in
  let rng := mkRng (fun _ => 0.5) (fun _ => 0) 0 0 in
  let d := mkSliderDemo create_slider_boxes 1000 150 [] (Gilbert_init 0.5 0.3)
             200 [(fin 0.5, fin 0); (fin 0.7, fin 0)] [] false false 0.1
             None 0 0 0 0 0.03 0 0 0 false in
  exists (d' : SliderDemo) (box_weights : list float) (rng' : Rng),
    draw filter_step moments moments paint_boxes paint_estimate d 500 1 2 rng
    = Some (d', box_weights, rng')
    /\ length box_weights = 3%nat
    /\ Forall positive box_weights
    /\ fsum box_weights = fin 1.
Proof.
  intros filter_step moments paint_boxes paint_estimate rng d.
  destruct (draw_total filter_step moments moments paint_boxes paint_estimate
              d 500 1 2 rng (or_introl eq_refl))
    as [[[d' bw] rng'] Ed]; try reflexivity.
  { intros. cbn. now rewrite length_map. }
  exists d', bw, rng'. split; [exact Ed |].
  apply (tick_probabilities_sum_to_1 filter_step moments moments
           paint_boxes paint_estimate d d' 500 1 2 rng rng' bw).
  - intros ps o dt rate r. cbn [filter_step fst snd].
    assert (Hinv : 0 <= / INR (length ps)).
    { destruct (length ps) as [| n].
      - cbn [INR]. rewrite Rinv_0. lra.
      - left. apply Rinv_0_lt_compat. apply lt_0_INR. lia. }
    split; [now rewrite length_map |]. split.
    + apply Forall_map. apply Forall_forall. intros p _. exact Hinv.
    + unfold total_at_most. rewrite fsum_map_const. cbv beta iota.
      destruct (length ps) as [| n].
      * cbn [INR]. rewrite Rmult_0_l. lra.
      * rewrite Rinv_r by (apply not_0_INR; lia). lra.
  - discriminate.
  - repeat constructor; cbn [nonneg prior Box_init]; lra.
  - exact Ed.
Defined.
